(** * truba / laygo: lazy pipelines over asynchronous sequences

    A shallow embedding of [src/index.ts] (the generator-based transformer
    library and its [result] sink) and of [src/pipeline.ts] (the chaining
    façade), together with the properties stated for them.

    Modelling conventions.
    - An [AsyncGenerator<T>] that is drained to its end is the finite trace of
      what its consumer observes: a run of yielded items closed either by
      normal exhaustion or by a rejection.  A [for await] loop is a structural
      recursion over that trace; the loop's local variables are its
      accumulator arguments.
    - [Result<T> = T | Promise<T>] is what awaiting gives: a fulfilled value
      or a rejection (a synchronous [throw] in a callback is a rejection too).
    - A JS [number] used as a count or a size is a [Z]; [===] against
      [array.length] compares it with the length as an integer.
    - A JS object used as a dictionary is a [gmap] of its own properties plus
      the members every object literal inherits from [Object.prototype].  *)

From Stdlib Require Import ZArith Lia.
From stdpp Require Import base option list gmap strings fin_maps.

Open Scope Z_scope.
Open Scope string_scope.
Open Scope list_scope.
Open Scope nat_scope.

(** ** Values shared by both source files *)

(** What a rejected promise or a [throw] carries. *)
Inductive exn : Type :=
| TypeError (message : string)
| UserThrown (payload : string).

(** The outcome of awaiting a [Result<A>]. *)
Inductive Result (A : Type) : Type :=
| Fulfilled (v : A)
| Rejected (e : exn).
Arguments Fulfilled {A} v.
Arguments Rejected {A} e.

(** A finite asynchronous generator, as seen by the code that pulls it. *)
Inductive AsyncGenerator (T : Type) : Type :=
| GDone                                    (* { done: true } *)
| GYield (value : T) (rest : AsyncGenerator T)  (* { value, done: false } *)
| GThrow (e : exn).                        (* the pull rejects *)
Arguments GDone {T}.
Arguments GYield {T} value rest.
Arguments GThrow {T} e.

(** What reading a record's grouping field gives: [undefined] when the field
    is missing, or a string.  (Any other value reaches the accumulator as
    the string it converts to.) *)
Inductive JsValue : Type :=
| undefined
| JsString (s : string).

#[global] Instance JsValue_eq_dec : EqDecision JsValue.
Proof. solve_decision. Defined.

(** [ToPropertyKey]: the string under which [acc[value]] is stored. *)
Definition ToPropertyKey (value : JsValue) : string :=
  match value with
  | undefined => "undefined"
  | JsString s => s
  end.

(** The property names an object literal [{}] inherits from
    [Object.prototype] (ECMAScript, Annex B included). *)
Definition Object_prototype : list string :=
  [ "constructor"; "hasOwnProperty"; "isPrototypeOf"; "propertyIsEnumerable";
    "toLocaleString"; "toString"; "valueOf"; "__proto__";
    "__defineGetter__"; "__defineSetter__"; "__lookupGetter__";
    "__lookupSetter__" ].

Definition inherited (k : string) : bool := bool_decide (k ∈ Object_prototype).

(** [SameValueZero], the comparison a [Set] makes between its members: two
    items are the same when their keys are.  A number, a string or a boolean
    is compared by value and is its own key; an array or an object is
    compared by identity, whatever it holds. *)
Class SameValueZero (T : Type) : Type := {
  Key : Type;
  Key_eq_dec :: EqDecision Key;
  Key_countable :: Countable Key;
  key : T -> Key
}.
Arguments Key T {_}.

(** Items compared by value. *)
Definition value_compared (T : Type) `{Countable T} : SameValueZero T :=
  {| Key := T; key := id |}.

#[global] Instance number_SameValueZero : SameValueZero Z := value_compared Z.
#[global] Instance nat_SameValueZero : SameValueZero nat := value_compared nat.
#[global] Instance string_SameValueZero : SameValueZero string := value_compared string.
#[global] Instance boolean_SameValueZero : SameValueZero bool := value_compared bool.

(** An array or an object: where it lives, and what it holds at the time. *)
Record Reference (A : Type) : Type := mkReference {
  address : nat;
  content : A
}.
Arguments mkReference {A} address content.
Arguments address {A} r.
Arguments content {A} r.

#[global] Instance Reference_SameValueZero {A : Type} : SameValueZero (Reference A) :=
  {| Key := nat; key := address |}.

(** ** [src/index.ts] *)
Module Index.

Section Generators.
Context {T : Type}.

(** [for (const item of source) yield item] *)
Fixpoint arrayGenerator (source : list T) : AsyncGenerator T :=
  match source with
  | [] => GDone
  | item :: source => GYield item (arrayGenerator source)
  end.

(** [yield* res] followed by the rest of the generator body [k]. *)
Fixpoint yield_star (res : list T) (k : AsyncGenerator T) : AsyncGenerator T :=
  match res with
  | [] => k
  | item :: res => GYield item (yield_star res k)
  end.

(** [result]: [res] is the array built so far. *)
Fixpoint result_loop (source : AsyncGenerator T) (res : list T) : Result (list T) :=
  match source with
  | GYield item rest => result_loop rest (res ++ [item])
  | GDone => Fulfilled res
  | GThrow e => Rejected e
  end.

Definition result (source : AsyncGenerator T) : Result (list T) :=
  result_loop source [].

(** [chunk]: [buffer] is the group being filled. *)
Fixpoint chunk_loop (source : AsyncGenerator T) (size : Z) (buffer : list T)
  : AsyncGenerator (list T) :=
  match source with
  | GYield item rest =>
      let buffer := buffer ++ [item] in
      if (Z.of_nat (length buffer) =? size)%Z
      then GYield buffer (chunk_loop rest size [])
      else chunk_loop rest size buffer
  | GDone =>
      if (length buffer =? 0)%nat then GDone else GYield buffer GDone
  | GThrow e => GThrow e
  end.

Definition chunk (source : AsyncGenerator T) (size : Z) : AsyncGenerator (list T) :=
  chunk_loop source size [].

(** [filter] *)
Fixpoint filter (source : AsyncGenerator T) (fn : T -> Result bool)
  : AsyncGenerator T :=
  match source with
  | GYield item rest =>
      match fn item with
      | Fulfilled true => GYield item (filter rest fn)
      | Fulfilled false => filter rest fn
      | Rejected e => GThrow e
      end
  | GDone => GDone
  | GThrow e => GThrow e
  end.

(** [collect] *)
Fixpoint collect_loop (source : AsyncGenerator T) (res : list T)
  : AsyncGenerator (list T) :=
  match source with
  | GYield item rest => collect_loop rest (res ++ [item])
  | GDone => GYield res GDone
  | GThrow e => GThrow e
  end.

Definition collect (source : AsyncGenerator T) : AsyncGenerator (list T) :=
  collect_loop source [].

(** [take]: the loop returns the array [res] it has built, or the rejection
    that ended it, and what it has left unpulled in [source].  A [break]
    stops pulling; the items still in [source] are never asked for. *)
Fixpoint take_loop (source : AsyncGenerator T) (count : Z) (res : list T)
  : Result (list T) * AsyncGenerator T :=
  match source with
  | GYield item rest =>
      let res := res ++ [item] in
      if (Z.of_nat (length res) =? count)%Z
      then (Fulfilled res, rest)
      else take_loop rest count res
  | GDone => (Fulfilled res, GDone)
  | GThrow e => (Rejected e, GDone)
  end.

Definition take (source : AsyncGenerator T) (count : Z) : AsyncGenerator T :=
  match fst (take_loop source count []) with
  | Fulfilled res => yield_star res GDone
  | Rejected e => GThrow e
  end.

(** The part of [source] that [take] never pulls. *)
Definition take_unpulled (source : AsyncGenerator T) (count : Z) : AsyncGenerator T :=
  snd (take_loop source count []).

(** [unique]: [res] is the [Set] of the items seen, held by the keys under
    which [has] finds them. *)
Fixpoint unique_loop `{SameValueZero T} (source : AsyncGenerator T) (res : gset (Key T))
  : AsyncGenerator T :=
  match source with
  | GYield item rest =>
      if decide (key item ∈ res)
      then unique_loop rest res
      else GYield item (unique_loop rest ({[key item]} ∪ res))
  | GDone => GDone
  | GThrow e => GThrow e
  end.

Definition unique `{SameValueZero T} (source : AsyncGenerator T) : AsyncGenerator T :=
  unique_loop source ∅.

(** [reduce(source, key, ignoreUndefined)]: [get item] is [item[key]];
    [acc] holds the own properties of the accumulator object.  When
    [value in acc] holds through the prototype chain alone, [acc[value]] is
    an inherited member without a [push] method. *)
Fixpoint reduce_loop (get : T -> JsValue) (source : AsyncGenerator T)
    (ignoreUndefined : bool) (acc : gmap string (list T))
  : AsyncGenerator (gmap string (list T)) :=
  match source with
  | GYield item rest =>
      let value := get item in
      if ignoreUndefined && bool_decide (value = undefined)
      then reduce_loop get rest ignoreUndefined acc
      else
        match acc !! ToPropertyKey value with
        | Some group =>
            reduce_loop get rest ignoreUndefined
              (<[ToPropertyKey value := group ++ [item]]> acc)
        | None =>
            if inherited (ToPropertyKey value)
            then GThrow (TypeError "acc[value].push is not a function")
            else reduce_loop get rest ignoreUndefined
                   (<[ToPropertyKey value := [item]]> acc)
        end
  | GDone => GYield acc GDone
  | GThrow e => GThrow e
  end.

Definition reduce (get : T -> JsValue) (source : AsyncGenerator T)
    (ignoreUndefined : bool) : AsyncGenerator (gmap string (list T)) :=
  reduce_loop get source ignoreUndefined ∅.

End Generators.

(** [map] *)
Fixpoint map {T U : Type} (source : AsyncGenerator T) (fn : T -> Result U)
  : AsyncGenerator U :=
  match source with
  | GYield item rest =>
      match fn item with
      | Fulfilled v => GYield v (map rest fn)
      | Rejected e => GThrow e
      end
  | GDone => GDone
  | GThrow e => GThrow e
  end.

(** [join] (the generator of the first version of the file): [res.join]
    on strings puts [separator] between consecutive items. *)
Fixpoint join_loop (source : AsyncGenerator string) (separator : string)
    (res : list string) : AsyncGenerator string :=
  match source with
  | GYield item rest => join_loop rest separator (res ++ [item])
  | GDone => GYield (String.concat separator res) GDone
  | GThrow e => GThrow e
  end.

Definition join (source : AsyncGenerator string) (separator : string)
  : AsyncGenerator string :=
  join_loop source separator [].

(** An item of a sequence handed to [flat]: an array, for which
    [Array.isArray(item)] holds, or anything else. *)
Inductive Nested (U : Type) : Type :=
| NotArray (item : U)
| IsArray (item : list U).
Arguments NotArray {U} item.
Arguments IsArray {U} item.

(** [flat]: one level only. *)
Fixpoint flat {U : Type} (source : AsyncGenerator (Nested U)) : AsyncGenerator U :=
  match source with
  | GYield (NotArray item) rest => GYield item (flat rest)
  | GYield (IsArray item) rest => yield_star item (flat rest)
  | GDone => GDone
  | GThrow e => GThrow e
  end.

(** A sequence whose items are all arrays, as [flat] receives it. *)
Fixpoint arrays {U : Type} (source : AsyncGenerator (list U)) : AsyncGenerator (Nested U) :=
  match source with
  | GYield item rest => GYield (IsArray item) (arrays rest)
  | GDone => GDone
  | GThrow e => GThrow e
  end.

(** [flatMap] of [pipelineBase]: [flat(map(source, fn))], where [fn] returns
    an array. *)
Definition flatMap {T U : Type} (source : AsyncGenerator T) (fn : T -> Result (list U))
  : AsyncGenerator U :=
  flat (map source (λ val, match fn val with
                           | Fulfilled a => Fulfilled (IsArray a)
                           | Rejected e => Rejected e
                           end)).

(** [tap]: the callback's value is awaited and dropped. *)
Fixpoint tap {T U : Type} (source : AsyncGenerator T) (fn : T -> Result U)
  : AsyncGenerator T :=
  match source with
  | GYield item rest =>
      match fn item with
      | Fulfilled _ => GYield item (tap rest fn)
      | Rejected e => GThrow e
      end
  | GDone => GDone
  | GThrow e => GThrow e
  end.

(** [each]: the callback is run for what it does; [s] is the state of the
    world it acts on, which every call hands to the next. *)
Fixpoint each {T U S : Type} (source : AsyncGenerator T)
    (fn : T -> S -> S * Result U) (s : S) : S * Result unit :=
  match source with
  | GYield item rest =>
      match fn item s with
      | (s, Fulfilled _) => each rest fn s
      | (s, Rejected e) => (s, Rejected e)
      end
  | GDone => (s, Fulfilled tt)
  | GThrow e => (s, Rejected e)
  end.

(** [pipe]: [write] and [end_] are [destination.write] and
    [destination.end] acting on the destination [D]; what [write] returns is
    not looked at. *)
Fixpoint pipe {T D : Type} (write : D -> T -> D) (end_ : D -> D)
    (source : AsyncGenerator T) (destination : D) : D * Result unit :=
  match source with
  | GYield item rest => pipe write end_ rest (write destination item)
  | GDone => (end_ destination, Fulfilled tt)
  | GThrow e => (destination, Rejected e)
  end.

(** [promiseGenerator]: [yield await source]. *)
Definition promiseGenerator {T : Type} (source : Result T) : AsyncGenerator T :=
  match source with
  | Fulfilled v => GYield v GDone
  | Rejected e => GThrow e
  end.


(** [laygo.fromArray(source).result()] and friends: [pipelineBase] wraps the
    generator and each method applies the function of the same name. *)
Definition fromArray {T} (source : list T) : AsyncGenerator T := arrayGenerator source.

End Index.

(** ** [./errors] and [./transformers], imported by [src/pipeline.ts] *)
Module Transformers.

(** Modelled from the spec: the error-recovery policy of [./errors], which is
    not among the sources.  Given the triggering input item and the thrown
    error it yields one of three outcomes. *)
Inductive Outcome (U : Type) : Type :=
| skip                    (* drop the item, continue *)
| substitute (value : U)  (* emit a replacement output item, continue *)
| propagate.              (* rethrow: the whole pipeline terminates *)
Arguments skip {U}.
Arguments substitute {U} value.
Arguments propagate {U}.

Definition ErrorMap (T U : Type) : Type := T -> exn -> Outcome U.

(** Modelled from the spec: [map(fn)] of [./transformers], which is not among
    the sources: output = [fn(item)] for each input, in order; on [fn] failure
    the policy is consulted, and the absence of a policy is an implicit
    propagate. *)
Fixpoint map {T U : Type} (source : AsyncGenerator T) (fn : T -> Result U)
    (errorMap : option (ErrorMap T U)) : AsyncGenerator U :=
  match source with
  | GYield item rest =>
      match fn item with
      | Fulfilled v => GYield v (map rest fn errorMap)
      | Rejected e =>
          match errorMap with
          | None => GThrow e
          | Some policy =>
              match policy item e with
              | skip => map rest fn errorMap
              | substitute v => GYield v (map rest fn errorMap)
              | propagate => GThrow e
              end
          end
      end
  | GDone => GDone
  | GThrow e => GThrow e
  end.

(** Modelled from the spec: [reduce(fn, initial)] of [./transformers], which
    is not among the sources: a sequential left fold whose single final
    accumulator is emitted once upstream exhausts; a failure of [fn] consults
    the policy (skip keeps the accumulator, substitute replaces it). *)
Fixpoint reduce {T U : Type} (source : AsyncGenerator T)
    (fn : U -> T -> Result U) (acc : U) (errorMap : option (ErrorMap T U))
  : AsyncGenerator U :=
  match source with
  | GYield item rest =>
      match fn acc item with
      | Fulfilled acc' => reduce rest fn acc' errorMap
      | Rejected e =>
          match errorMap with
          | None => GThrow e
          | Some policy =>
              match policy item e with
              | skip => reduce rest fn acc errorMap
              | substitute acc' => reduce rest fn acc' errorMap
              | propagate => GThrow e
              end
          end
      end
  | GDone => GYield acc GDone
  | GThrow e => GThrow e
  end.

End Transformers.

(** ** [./fork], imported by [src/pipeline.ts] *)
Module Fork.

Section ForkState.
Context {T : Type}.

(** Modelled from the spec: the shared state of [./fork], which is not among
    the sources.  The upstream sequence is held by the items it has yet to
    yield; [buffer] holds the slots pulled but not yet read by every handle,
    each with its pending-reader count; [base] is the absolute position of
    the buffer's front (the number of slots evicted so far), so that
    [base + length buffer] is the write position; handle [h] is the [h]-th
    entry of [cursors], its read cursor.  The reader count is a snapshot
    taken once, the number of handles live when the shared buffer comes into
    being, which is read here as the moment of the first pull (the spec's
    intended usage creates every branch before that).  [pulled] logs what
    the upstream has been made to yield. *)
Record ForkState : Type := mkForkState {
  upstream : list T;
  buffer : list (T * nat);
  base : nat;
  cursors : list nat;
  readers : option nat;
  exhausted : bool;
  pulled : list T
}.

(** Modelled from the spec: [fork(sequence) → ForkFactory]. *)
Definition createForkableGenerator (source : list T) : ForkState :=
  {| upstream := source; buffer := []; base := 0; cursors := [];
     readers := None; exhausted := false; pulled := [] |}.

(** Modelled from the spec: [ForkFactory.fork() → Sequence]; each call
    yields a new branch, named by its position among the handles, whose
    cursor starts at the beginning. *)
Definition fork (s : ForkState) : nat * ForkState :=
  (length (cursors s),
   {| upstream := upstream s; buffer := buffer s; base := base s;
      cursors := cursors s ++ [0]; readers := readers s;
      exhausted := exhausted s; pulled := pulled s |}).

(** Modelled from the spec: eviction in [./fork]; a slot leaves the buffer
    from its front once its pending-reader count has reached zero. *)
Fixpoint evict (buffer : list (T * nat)) : list (T * nat) :=
  match buffer with
  | (_, 0) :: rest => evict rest
  | _ => buffer
  end.

(** Modelled from the spec: the reader count new slots are tagged with in
    [./fork]: the snapshot once taken, the number of live handles until
    then. *)
Definition snapshot (s : ForkState) : nat :=
  match readers s with
  | Some n => n
  | None => length (cursors s)
  end.

(** Modelled from the spec: serving handle [h], whose cursor is [c], from
    the buffer: return the item, advance the cursor, decrement the slot's
    pending-reader count and evict from the front. *)
Definition serve (h c : nat) (s : ForkState) : option T * ForkState :=
  match buffer s !! (c - base s) with
  | Some (item, pending) =>
      let decremented := <[c - base s := (item, pred pending)]> (buffer s) in
      let kept := evict decremented in
      (Some item,
       {| upstream := upstream s; buffer := kept;
          base := base s + (length decremented - length kept);
          cursors := <[h := S c]> (cursors s); readers := readers s;
          exhausted := exhausted s; pulled := pulled s |})
  | None => (None, s)
  end.

(** Modelled from the spec: one pull of handle [h]; [None] is the
    end-of-sequence signal.  The upstream mutex makes the extension of the
    frontier one indivisible step, so a pull is a function of the state.
    A cursor behind the buffer's front (its slot was evicted before the
    handle read it) has nothing to read: the spec gives such a handle no
    replay guarantee. *)
Definition next (h : nat) (s : ForkState) : option T * ForkState :=
  match cursors s !! h with
  | None => (None, s)
  | Some c =>
      let s := {| upstream := upstream s; buffer := buffer s; base := base s;
                  cursors := cursors s; readers := Some (snapshot s);
                  exhausted := exhausted s; pulled := pulled s |} in
      if c <? base s then (None, s)
      else if c - base s <? length (buffer s) then serve h c s
      else if exhausted s then (None, s)
      else
        match upstream s with
        | [] =>
            (None,
             {| upstream := []; buffer := buffer s; base := base s;
                cursors := cursors s; readers := readers s;
                exhausted := true; pulled := pulled s |})
        | item :: rest =>
            serve h c
              {| upstream := rest;
                 buffer := buffer s ++ [(item, snapshot s)];
                 base := base s; cursors := cursors s; readers := readers s;
                 exhausted := false; pulled := pulled s ++ [item] |}
        end
  end.

(** [result], the loop of [index.ts], run on a branch: pull until the
    end-of-sequence signal, pushing each item to [res].  [None] means the
    loop was cut short by [fuel]. *)
Fixpoint result_loop (fuel : nat) (h : nat) (s : ForkState) (res : list T)
  : option (list T * ForkState) :=
  match fuel with
  | 0 => None
  | S fuel =>
      match next h s with
      | (Some item, s') => result_loop fuel h s' (res ++ [item])
      | (None, s') => Some (res, s')
      end
  end.

(** Every pull that returns an item either moves the cursor towards the
    write position or shortens the upstream: this many pulls suffice. *)
Definition result (h : nat) (s : ForkState) : option (list T * ForkState) :=
  result_loop (S (length (buffer s) + length (upstream s))) h s [].

(** An interleaving of single pulls by the handles named in [schedule];
    the trace records which handle received what. *)
Fixpoint run (schedule : list nat) (s : ForkState)
  : list (nat * option T) * ForkState :=
  match schedule with
  | [] => ([], s)
  | h :: schedule =>
      let '(r, s') := next h s in
      let '(trace, s'') := run schedule s' in
      ((h, r) :: trace, s'')
  end.

(** The items handle [h] has received in a trace, in order. *)
Fixpoint received (h : nat) (trace : list (nat * option T)) : list T :=
  match trace with
  | [] => []
  | (h', Some item) :: trace =>
      if decide (h' = h) then item :: received h trace else received h trace
  | (_, None) :: trace => received h trace
  end.

End ForkState.
Arguments ForkState T : clear implicits.

End Fork.

(** ** [src/pipeline.ts] *)
Module Pipeline.

(** The variables a call of [pipeline(source)] closes over. *)
Record closure (Gen Forkable : Type) : Type := mkClosure {
  generator : Gen;
  forkedGenerator : option Forkable
}.
Arguments mkClosure {Gen Forkable} generator forkedGenerator.
Arguments generator {Gen Forkable} c.
Arguments forkedGenerator {Gen Forkable} c.

(** The functions [pipeline.ts] imports from [./transformers], over whatever
    represents a sequence. *)
Class Transformers (Gen Fn ErrorMap Separator Acc : Type) : Type := {
  t_split : Gen -> Separator -> option Z -> Gen;
  t_join : Gen -> option string -> Gen;
  t_map : Gen -> Fn -> option ErrorMap -> Gen;
  t_filter : Gen -> Fn -> option ErrorMap -> Gen;
  t_chunk : Gen -> Z -> Gen;
  t_take : Gen -> Z -> Gen;
  t_flat : Gen -> Gen;
  t_collect : Gen -> Gen;
  t_tap : Gen -> Fn -> option ErrorMap -> Gen;
  t_unique : Gen -> Gen;
  t_reduce : Gen -> Fn -> Acc -> option ErrorMap -> Gen;
  t_validate : Gen -> Fn -> Fn -> Gen;
  (* the arrow function [groupBy] builds from its [key], and [{}] *)
  groupBy_fn : string -> Fn;
  empty_object : Acc
}.

Section Facade.
Context {Gen Forkable Fn ErrorMap Separator Acc : Type}.
Context `{!Transformers Gen Fn ErrorMap Separator Acc}.

(** A call of one of the chaining methods, with its arguments. *)
Inductive chaining : Type :=
| split (separator : Separator) (limit : option Z)
| join (delimiter : option string)
| map (fn : Fn) (errorMap : option ErrorMap)
| filter (fn : Fn) (errorMap : option ErrorMap)
| chunk (size : Z)
| take (count : Z)
| flat
| flatMap (fn : Fn)
| collect
| tap (fn : Fn) (errorMap : option ErrorMap)
| unique
| reduce (fn : Fn) (initialValue : Acc) (errorMap : option ErrorMap)
| groupBy (key : string)
| validate (fn errFn : Fn).

(** The right-hand side of [generator = ...] in each method. *)
Definition wrapped (m : chaining) (generator : Gen) : Gen :=
  match m with
  | split separator limit => t_split generator separator limit
  | join delimiter => t_join generator delimiter
  | map fn errorMap => t_map generator fn errorMap
  | filter fn errorMap => t_filter generator fn errorMap
  | chunk size => t_chunk generator size
  | take count => t_take generator count
  | flat => t_flat generator
  | flatMap fn => t_flat (t_map generator fn None)
  | collect => t_collect generator
  | tap fn errorMap => t_tap generator fn errorMap
  | unique => t_unique generator
  | reduce fn initialValue errorMap => t_reduce generator fn initialValue errorMap
  | groupBy key => t_reduce generator (groupBy_fn key) empty_object None
  | validate fn errFn => t_validate generator fn errFn
  end.

(** The façade objects alive, each with the closure its methods share; a
    reference to a façade is its key. *)
Abbreviation heap := (gmap nat (closure Gen Forkable)).

(** [pipeline(source)]: a new object over new variables. *)
Definition pipeline (source : Gen) (σ : heap) : nat * heap :=
  let this := fresh (dom σ) in
  (this, <[this := mkClosure source None]> σ).

(** [this.m(...)] for a chaining method [m]: assign [generator], then
    [return this]. *)
Definition call (m : chaining) (this : nat) (σ : heap) : option (nat * heap) :=
  match σ !! this with
  | Some c =>
      Some (this,
            <[this := mkClosure (wrapped m (generator c)) (forkedGenerator c)]> σ)
  | None => None
  end.

(** [this.m1(...).m2(...)...]: each call is made on what the previous one
    returned; the references returned along the way are collected. *)
Fixpoint chain (ms : list chaining) (this : nat) (σ : heap)
  : option (list nat * heap) :=
  match ms with
  | [] => Some ([], σ)
  | m :: ms =>
      match call m this σ with
      | Some (r, σ') =>
          match chain ms r σ' with
          | Some (rs, σ'') => Some (r :: rs, σ'')
          | None => None
          end
      | None => None
      end
  end.

(** [toGenerator()] *)
Definition toGenerator (this : nat) (σ : heap) : option Gen :=
  generator <$> σ !! this.

End Facade.

(** What [pipeline.ts] imports from [./fork]: building the forkable
    generator around a sequence, and its [fork()], which hands out a branch
    and may change the forkable generator. *)
Class Forkables (Gen Forkable : Type) : Type := {
  createForkableGenerator : Gen -> Forkable;
  forkable_fork : Forkable -> Gen * Forkable
}.

Section FacadeFork.
Context {Gen Forkable : Type} `{!Forkables Gen Forkable}.

(** [this.fork()]: build the forkable generator if [forkedGenerator] is not
    set yet, then [return pipeline(forkedGenerator.fork())]. *)
Definition fork_call (this : nat) (σ : gmap nat (closure Gen Forkable))
  : option (nat * gmap nat (closure Gen Forkable)) :=
  match σ !! this with
  | Some c =>
      let forked :=
        match forkedGenerator c with
        | Some forked => forked
        | None => createForkableGenerator (generator c)
        end in
      let '(branch, forked) := forkable_fork forked in
      Some (pipeline branch (<[this := mkClosure (generator c) (Some forked)]> σ))
  | None => None
  end.

End FacadeFork.

Section Forking.
Context {T : Type}.

(** [fork()] on a façade whose current sequence yields the items of
    [generator]: build the forkable generator on first use, keep it, and
    return [pipeline(forkedGenerator.fork())].  The new façade is named by
    the branch it wraps. *)
Definition fork (this : closure (list T) (Fork.ForkState T))
  : nat * closure (list T) (Fork.ForkState T) :=
  let forked :=
    match forkedGenerator this with
    | Some forked => forked
    | None => Fork.createForkableGenerator (generator this)
    end in
  let '(branch, forked) := Fork.fork forked in
  (branch, mkClosure (generator this) (Some forked)).

(** [fork()] called [n] times in a row, nothing consumed in between. *)
Fixpoint forks (n : nat) (this : closure (list T) (Fork.ForkState T))
  : list nat * closure (list T) (Fork.ForkState T) :=
  match n with
  | 0 => ([], this)
  | S n =>
      let '(branch, this) := fork this in
      let '(branches, this) := forks n this in
      (branch :: branches, this)
  end.

(** [result()] on the façade of a branch, and pulls interleaved among the
    branches, act on the forkable generator the origin façade holds. *)
Definition branch_result (branch : nat) (this : closure (list T) (Fork.ForkState T))
  : option (list T * closure (list T) (Fork.ForkState T)) :=
  match forkedGenerator this with
  | Some forked =>
      match Fork.result branch forked with
      | Some (res, forked) => Some (res, mkClosure (generator this) (Some forked))
      | None => None
      end
  | None => None
  end.

(** [result()] on the façades of several branches, one after another;
    the arrays are returned in the order of the calls. *)
Fixpoint branch_results (order : list nat) (this : closure (list T) (Fork.ForkState T))
  : option (list (list T) * closure (list T) (Fork.ForkState T)) :=
  match order with
  | [] => Some ([], this)
  | branch :: order =>
      match branch_result branch this with
      | Some (res, this) =>
          match branch_results order this with
          | Some (all, this) => Some (res :: all, this)
          | None => None
          end
      | None => None
      end
  end.

Definition branch_pulls (schedule : list nat) (this : closure (list T) (Fork.ForkState T))
  : list (nat * option T) * closure (list T) (Fork.ForkState T) :=
  match forkedGenerator this with
  | Some forked =>
      let '(trace, forked) := Fork.run schedule forked in
      (trace, mkClosure (generator this) (Some forked))
  | None => ([], this)
  end.

(** What the origin sequence has been made to yield so far. *)
Definition origin_pulled (this : closure (list T) (Fork.ForkState T)) : list T :=
  match forkedGenerator this with
  | Some forked => Fork.pulled forked
  | None => []
  end.

End Forking.

Section GroupBy.
Context {T : Type}.

(** The callback [groupBy(key)] hands to [reduce], with [{}] as the initial
    accumulator: [get val] is [val[key]].  An own property of [acc] is an
    array, which is truthy; a member inherited from [Object.prototype] is
    truthy too, but has no [push]. *)
Definition groupBy_callback (get : T -> JsValue)
    (acc : gmap string (list T)) (val : T) : Result (gmap string (list T)) :=
  let k := ToPropertyKey (get val) in
  match acc !! k with
  | Some group => Fulfilled (<[k := group ++ [val]]> acc)
  | None =>
      if inherited k
      then Rejected (TypeError "acc[k].push is not a function")
      else Fulfilled (<[k := [] ++ [val]]> acc)
  end.

Definition groupBy_generator (get : T -> JsValue) (generator : AsyncGenerator T)
  : AsyncGenerator (gmap string (list T)) :=
  Transformers.reduce generator (groupBy_callback get) ∅ None.

End GroupBy.

End Pipeline.

(** ** Specification-level definitions *)

(** The items of [l] that are the same as no earlier item of [l], in the
    order of [l]: what remains when every value is kept at its first
    occurrence only. *)
Definition first_occurrences `{SameValueZero T} (l : list T) : list T :=
  omap (λ i, x ← l !! i;
             if decide (key x ∈ key <$> firstn i l) then None else Some x)
       (seq 0 (length l)).

(** Lifting a function on arrays to the outcome of [result]. *)
Definition on_fulfilled {A B : Type} (f : A -> B) (r : Result A) : Result B :=
  match r with
  | Fulfilled v => Fulfilled (f v)
  | Rejected e => Rejected e
  end.

(** Every group but the last is full. *)
Definition full_but_last {T : Type} (n : nat) (groups : list (list T)) : Prop :=
  ∀ i g, groups !! i = Some g -> S i < length groups -> length g = n.

(** The value a callback produced, if it did not fail. *)
Definition fulfilled_value {U : Type} (r : Result U) : option U :=
  match r with
  | Fulfilled v => Some v
  | Rejected _ => None
  end.

(** The records of [l] filed under property key [s], in arrival order. *)
Definition group_of {T : Type} (get : T -> JsValue) (s : string) (l : list T) : list T :=
  filter (λ r, ToPropertyKey (get r) = s) l.

(** A record with a grouping field [k] and a payload [v]. *)
Module KV.
Record t : Type := mk { k : JsValue; v : Z }.
End KV.

(** What is filed under [s] once the records of [l] have joined the groups
    already in [acc]. *)
Definition filed {T : Type} (get : T -> JsValue) (acc : gmap string (list T))
    (l : list T) (s : string) : option (list T) :=
  match acc !! s, group_of get s l with
  | Some g, new => Some (g ++ new)
  | None, [] => None
  | None, new => Some new
  end.

(** No record of [l] has a key that names a member of [Object.prototype]. *)
Definition plain_keys {T : Type} (get : T -> JsValue) (l : list T) : Prop :=
  Forall (λ r, inherited (ToPropertyKey (get r)) = false) l.

(** The handles whose cursor has not passed position [a]: the readers the
    slot at [a] is still pending for. *)
Fixpoint pending_readers (a : nat) (cursors : list nat) : nat :=
  match cursors with
  | [] => 0
  | c :: cursors => (if c <=? a then 1 else 0) + pending_readers a cursors
  end.

(** The states the fork subsystem goes through when [n] branches are made
    over a source yielding [src] before any of them pulls. *)
Record fork_inv {T : Type} (src : list T) (n : nat) (s : Fork.ForkState T) : Prop := {
  inv_source : Fork.pulled s ++ Fork.upstream s = src;
  inv_handles : length (Fork.cursors s) = n;
  inv_snapshot : Fork.snapshot s = n;
  inv_write : Fork.base s + length (Fork.buffer s) = length (Fork.pulled s);
  inv_slots : ∀ i item pending,
    Fork.buffer s !! i = Some (item, pending) ->
    Fork.pulled s !! (Fork.base s + i) = Some item
    ∧ pending = pending_readers (Fork.base s + i) (Fork.cursors s);
  inv_cursors : ∀ h c,
    Fork.cursors s !! h = Some c -> Fork.base s ≤ c ≤ length (Fork.pulled s);
  inv_exhausted : Fork.exhausted s = true -> Fork.upstream s = []
}.

(** A symbolic reading of the transformers, for running the façade: a
    sequence is the list of the stages applied to its source, oldest first. *)
#[global] Instance stage_names : Pipeline.Transformers (list string) unit unit unit unit := {|
  Pipeline.t_split g _ _ := g ++ ["split"];
  Pipeline.t_join g _ := g ++ ["join"];
  Pipeline.t_map g _ _ := g ++ ["map"];
  Pipeline.t_filter g _ _ := g ++ ["filter"];
  Pipeline.t_chunk g _ := g ++ ["chunk"];
  Pipeline.t_take g _ := g ++ ["take"];
  Pipeline.t_flat g := g ++ ["flat"];
  Pipeline.t_collect g := g ++ ["collect"];
  Pipeline.t_tap g _ _ := g ++ ["tap"];
  Pipeline.t_unique g := g ++ ["unique"];
  Pipeline.t_reduce g _ _ _ := g ++ ["reduce"];
  Pipeline.t_validate g _ _ := g ++ ["validate"];
  Pipeline.groupBy_fn _ := tt;
  Pipeline.empty_object := tt
|}.

(** What a consumer that drains a sequence sees of it: the items, and the
    rejection that ended it, if one did. *)
Fixpoint yielded {T : Type} (source : AsyncGenerator T) : list T :=
  match source with
  | GYield item rest => item :: yielded rest
  | GDone | GThrow _ => []
  end.

Fixpoint failure {T : Type} (source : AsyncGenerator T) : option exn :=
  match source with
  | GYield _ rest => failure rest
  | GDone => None
  | GThrow e => Some e
  end.

(** A sequence that yields the items of [l] and then rejects with [e]. *)
Definition failing {T : Type} (l : list T) (e : exn) : AsyncGenerator T :=
  Index.yield_star l (GThrow e).

(** Sequencing two callbacks: the second runs on what the first fulfils. *)
Definition and_then {T U V : Type} (f : T -> Result U) (g : U -> Result V)
    (x : T) : Result V :=
  match f x with
  | Fulfilled y => g y
  | Rejected e => Rejected e
  end.

(** A symbolic forkable generator, for running the façade: the sequence it
    was built around and the number of branches handed out. *)
#[global] Instance forkable_names : Pipeline.Forkables (list string) (list string * nat) := {|
  Pipeline.createForkableGenerator g := (g, 0);
  Pipeline.forkable_fork f := (f.1 ++ ["branch"], (f.1, S f.2))
|}.

(** ** Facts about [src/index.ts] *)
Section IndexFacts.
Context {T : Type}.
Implicit Types (l res buffer : list T) (source : AsyncGenerator T).

Lemma result_loop_array l res :
  Index.result_loop (Index.arrayGenerator l) res = Fulfilled (res ++ l).
Proof.
  revert res; induction l as [|x l IH]; intros res; simpl.
  - by rewrite app_nil_r.
  - by rewrite IH, <- app_assoc.
Qed.

Lemma result_array l : Index.result (Index.arrayGenerator l) = Fulfilled l.
Proof. apply result_loop_array. Qed.

Lemma yield_star_array l : Index.yield_star l GDone = Index.arrayGenerator l.
Proof. induction l as [|x l IH]; simpl; congruence. Qed.

Lemma result_loop_shift source res :
  Index.result_loop source res = on_fulfilled (app res) (Index.result source).
Proof.
  unfold Index.result. revert res.
  induction source as [|x rest IH|e]; intros res; simpl.
  - by rewrite app_nil_r.
  - rewrite (IH (res ++ [x])), (IH [x]).
    destruct (Index.result_loop rest []); simpl; [|done].
    by rewrite <- app_assoc.
  - done.
Qed.

End IndexFacts.

(** *** map *)

Lemma map_result_commute {T U : Type} (f : T -> U) (source : AsyncGenerator T) :
  Index.result (Index.map source (λ val, Fulfilled (f val)))
  = on_fulfilled (fmap f) (Index.result source).
Proof.
  induction source as [|x rest IH|e]; simpl; try done.
  unfold Index.result in *; simpl.
  rewrite (result_loop_shift _ [f x]), (result_loop_shift rest [x]).
  unfold Index.result. rewrite IH.
  by destruct (Index.result_loop rest []).
Qed.

(** C6. For every input list and every function [f], [fromArray(input)]
    followed by [map(f)] and [result()] gives [f] applied element-wise, in
    order, to what [fromArray(input).result()] gives, which is the input
    itself; so the length is the input's. *)
Theorem map_then_result_is_elementwise {T U : Type} (input : list T) (f : T -> U) :
  Index.result (Index.map (Index.fromArray input) (λ val, Fulfilled (f val)))
  = on_fulfilled (fmap f) (Index.result (Index.fromArray input))
  ∧ Index.result (Index.fromArray input) = Fulfilled input
  ∧ Index.result (Index.map (Index.fromArray input) (λ val, Fulfilled (f val)))
    = Fulfilled (f <$> input)
  ∧ length (f <$> input) = length input.
Proof.
  unfold Index.fromArray.
  rewrite map_result_commute, result_array; simpl.
  rewrite length_fmap. done.
Qed.

(** *** collect and join *)

Lemma collect_loop_array {T : Type} (l res : list T) :
  Index.collect_loop (Index.arrayGenerator l) res = GYield (res ++ l) GDone.
Proof.
  revert res; induction l as [|x l IH]; intros res; simpl.
  - by rewrite app_nil_r.
  - by rewrite IH, <- app_assoc.
Qed.

Lemma join_loop_array (l res : list string) (separator : string) :
  Index.join_loop (Index.arrayGenerator l) separator res
  = GYield (String.concat separator (res ++ l)) GDone.
Proof.
  revert res; induction l as [|x l IH]; intros res; simpl.
  - by rewrite app_nil_r.
  - by rewrite IH, <- app_assoc.
Qed.

(** C10. Over every upstream that exhausts, the empty one included,
    [collect()] emits exactly one item, the list of all upstream items in
    order, and [join(separator)] emits exactly one string, the items joined
    by the separator; for the empty upstream these are the empty list and the
    empty string.  Neither emits zero items. *)
Theorem collect_and_join_emit_exactly_one {T : Type} (items : list T)
    (strings : list string) (separator : string) :
  Index.collect (Index.arrayGenerator items) = GYield items GDone
  ∧ Index.result (Index.collect (Index.arrayGenerator items)) = Fulfilled [items]
  ∧ Index.join (Index.arrayGenerator strings) separator
    = GYield (String.concat separator strings) GDone
  ∧ Index.result (Index.join (Index.arrayGenerator strings) separator)
    = Fulfilled [String.concat separator strings]
  ∧ Index.result (Index.collect (Index.arrayGenerator (@nil T))) = Fulfilled [[]]
  ∧ Index.result (Index.join (Index.arrayGenerator []) separator) = Fulfilled [""].
Proof.
  unfold Index.collect, Index.join.
  rewrite collect_loop_array, join_loop_array. simpl.
  repeat split; reflexivity.
Qed.

(** *** take *)

Lemma take_loop_nonpositive {T : Type} (count : Z) (l res : list T) :
  (count ≤ 0)%Z ->
  Index.take_loop (Index.arrayGenerator l) count res = (Fulfilled (res ++ l), GDone).
Proof.
  intros Hc. revert res; induction l as [|x l IH]; intros res; simpl.
  - by rewrite app_nil_r.
  - rewrite length_app; simpl.
    destruct (Z.eqb_spec (Z.of_nat (length res + 1)) count) as [E|_]; [lia|].
    by rewrite IH, <- app_assoc.
Qed.

(** X5. With a count that is not positive the test [res.length === count]
    never holds after a push, and [take] lets every item through. *)
Lemma take_nonpositive_emits_everything {T : Type} (count : Z) (l : list T) :
  (count ≤ 0)%Z ->
  Index.result (Index.take (Index.arrayGenerator l) count) = Fulfilled l.
Proof.
  intros Hc. unfold Index.take.
  rewrite take_loop_nonpositive by done. simpl.
  by rewrite yield_star_array, result_array.
Qed.

Lemma take_loop_positive {T : Type} (count : Z) (l res : list T) :
  (Z.of_nat (length res) < count)%Z ->
  Index.take_loop (Index.arrayGenerator l) count res
  = (Fulfilled (res ++ firstn (Z.to_nat count - length res) l),
     Index.arrayGenerator (skipn (Z.to_nat count - length res) l)).
Proof.
  revert res; induction l as [|x l IH]; intros res Hlt; simpl.
  - by rewrite firstn_nil, skipn_nil, app_nil_r.
  - rewrite length_app; simpl.
    destruct (Z.to_nat count - length res) as [|k] eqn:Ek; [lia|]. simpl.
    destruct (Z.eqb_spec (Z.of_nat (length res + 1)) count) as [E|N].
    + assert (k = 0) as -> by lia. by rewrite firstn_O, skipn_O.
    + rewrite IH by (rewrite length_app; simpl; lia).
      rewrite length_app; simpl.
      replace (Z.to_nat count - (length res + 1)) with k by lia.
      by rewrite <- app_assoc.
Qed.

(** X4. For a count of at least one, [take] emits the first [min(count, L)]
    items in order and leaves the rest of the upstream unpulled. *)
Lemma take_positive {T : Type} (count : Z) (l : list T) :
  (1 ≤ count)%Z ->
  Index.result (Index.take (Index.arrayGenerator l) count)
  = Fulfilled (firstn (Z.to_nat count) l)
  ∧ length (firstn (Z.to_nat count) l) = Nat.min (Z.to_nat count) (length l)
  ∧ Index.take_unpulled (Index.arrayGenerator l) count
    = Index.arrayGenerator (skipn (Z.to_nat count) l).
Proof.
  intros Hc. unfold Index.take, Index.take_unpulled.
  rewrite take_loop_positive by (simpl; lia). simpl.
  rewrite Nat.sub_0_r, yield_star_array, result_array, length_take.
  done.
Qed.

(** C3 (the code at the inputs where it departs from the claim).  With a
    count of zero, or a negative one, [take] followed by [result()] returns
    the whole upstream, having pulled all of it, where the first
    [min(0, L) = 0] items, an empty output, were claimed. *)
Theorem take_zero_returns_whole_upstream :
  Index.result (Index.take (Index.fromArray [1; 2; 3]) 0) = Fulfilled [1; 2; 3]
  ∧ Index.take_unpulled (Index.fromArray [1; 2; 3]) 0 = GDone
  ∧ Index.result (Index.take (Index.fromArray [1; 2; 3]) (-1)) = Fulfilled [1; 2; 3]
  ∧ Index.result (Index.take (Index.fromArray [1; 2; 3]) 0)
    ≠ Fulfilled (firstn (Nat.min 0 3) [1; 2; 3]).
Proof. repeat split; try reflexivity. discriminate. Qed.

(** *** chunk *)

Section ChunkFacts.
Context {T : Type}.
Implicit Types (l buffer : list T) (groups : list (list T)).

Lemma full_but_last_cons n g groups :
  length g = n -> full_but_last n groups -> full_but_last n (g :: groups).
Proof.
  intros Hg Hfull [|i] g' Hi Hlt; simpl in *.
  - congruence.
  - apply (Hfull i); [done | lia].
Qed.

Lemma chunk_loop_groups (n : nat) l buffer :
  1 ≤ n -> length buffer < n ->
  ∃ groups,
    Index.chunk_loop (Index.arrayGenerator l) (Z.of_nat n) buffer
    = Index.arrayGenerator groups
    ∧ concat groups = buffer ++ l
    ∧ full_but_last n groups
    ∧ ∀ g, last groups = Some g -> 1 ≤ length g ≤ n.
Proof.
  intros Hn. revert buffer. induction l as [|x l IH]; intros buffer Hb; simpl.
  - destruct buffer as [|y buffer]; simpl.
    + exists []. split_and!; try done.
    + exists [y :: buffer]. simpl. rewrite !app_nil_r.
      split_and!; try done.
      * intros i g Hi Hlt. simpl in Hlt. lia.
      * intros g [= <-]. simpl in *. lia.
  - rewrite length_app; simpl.
    destruct (Z.eqb_spec (Z.of_nat (length buffer + 1)) (Z.of_nat n)) as [E|N].
    + destruct (IH []) as (groups & Heq & Hcat & Hfull & Hlast); [simpl; lia|].
      exists ((buffer ++ [x]) :: groups). simpl. rewrite Heq, Hcat. simpl.
      rewrite <- app_assoc. simpl. split_and!; try done.
      * apply full_but_last_cons; [|done]. rewrite length_app; simpl. lia.
      * destruct groups as [|g' groups]; simpl in *.
        -- intros g [= <-]. rewrite length_app; simpl. lia.
        -- intros g Hg. by apply Hlast.
    + destruct (IH (buffer ++ [x])) as (groups & Heq & Hcat & Hfull & Hlast).
      { rewrite length_app; simpl. lia. }
      exists groups. rewrite Heq, Hcat, <- app_assoc. done.
Qed.

Lemma full_but_last_length n groups g :
  full_but_last n groups -> last groups = Some g ->
  length (concat groups) = n * (length groups - 1) + length g.
Proof.
  revert g. induction groups as [|g0 groups IH]; intros g Hfull Hlast; [done|].
  destruct groups as [|g1 groups].
  - simpl in *. injection Hlast as <-. rewrite app_nil_r. lia.
  - change (last (g0 :: g1 :: groups)) with (last (g1 :: groups)) in Hlast.
    change (concat (g0 :: g1 :: groups)) with (g0 ++ concat (g1 :: groups)).
    rewrite length_app, (IH g); [| |done].
    + rewrite (Hfull 0 g0); simpl; [lia|done|lia].
    + intros i g' Hi Hlt. apply (Hfull (S i)); simpl in *; [done|lia].
Qed.

Lemma chunk_loop_nonpositive (size : Z) l buffer :
  (size < 1)%Z ->
  Index.chunk_loop (Index.arrayGenerator l) size buffer
  = match buffer ++ l with
    | [] => GDone
    | _ :: _ => GYield (buffer ++ l) GDone
    end.
Proof.
  intros Hs. revert buffer; induction l as [|x l IH]; intros buffer; simpl.
  - rewrite app_nil_r. by destruct buffer.
  - rewrite length_app; simpl.
    destruct (Z.eqb_spec (Z.of_nat (length buffer + 1)) size) as [E|_]; [lia|].
    rewrite IH, <- app_assoc. simpl.
    by destruct buffer.
Qed.

End ChunkFacts.

(** C4. For every size [n >= 1] and every upstream of length [L],
    [chunk(n)] emits [ceil(L/n)] groups of consecutive items (their
    concatenation is the upstream); every group except possibly the last has
    [n] elements, and the last has [L mod n] elements when that is not zero,
    else [n]. *)
Theorem chunk_group_count_and_sizes {T : Type} (size : Z) (l : list T) :
  (1 ≤ size)%Z ->
  ∃ groups,
    Index.result (Index.chunk (Index.arrayGenerator l) size) = Fulfilled groups
    ∧ concat groups = l
    ∧ length groups = (length l + Z.to_nat size - 1) / Z.to_nat size
    ∧ full_but_last (Z.to_nat size) groups
    ∧ ∀ g, last groups = Some g ->
        length g = if length l mod Z.to_nat size =? 0
                   then Z.to_nat size
                   else length l mod Z.to_nat size.
Proof.
  intros Hs. set (n := Z.to_nat size).
  assert (Hn : 1 ≤ n) by lia.
  destruct (chunk_loop_groups n l [] Hn) as (groups & Heq & Hcat & Hfull & Hlast);
    [simpl; lia|].
  exists groups. unfold Index.chunk.
  replace size with (Z.of_nat n) by lia.
  rewrite Heq, result_array. simpl in Hcat.
  split; [done|]. split; [done|].
  destruct (last groups) as [g|] eqn:Hg.
  - pose proof (full_but_last_length n groups g Hfull Hg) as Hlen.
    rewrite Hcat in Hlen. specialize (Hlast g eq_refl).
    assert (Hk : 1 ≤ length groups) by (destruct groups; simpl in *; [done|lia]).
    split; [|split; [done|]].
    + apply (Nat.div_unique _ _ _ (length g - 1)); [lia|nia].
    + intros g' [= <-].
      destruct (decide (length g = n)) as [E|N].
      * assert (length l mod n = 0) as ->.
        { symmetry. apply (Nat.mod_unique _ _ (length groups)); [lia|nia]. }
        done.
      * assert (length l mod n = length g) as ->.
        { symmetry. apply (Nat.mod_unique _ _ (length groups - 1)); [lia|nia]. }
        destruct (Nat.eqb_spec (length g) 0); [lia|done].
  - assert (groups = []) as -> by (by apply last_None).
    simpl in Hcat. subst l. simpl.
    split; [|split; [done|done]].
    symmetry. apply Nat.div_small. lia.
Qed.

Lemma chunk_group_count_and_sizes_witness :
  ∃ groups,
    Index.result (Index.chunk (Index.arrayGenerator [1; 2; 3; 4; 5]) 2) = Fulfilled groups
    ∧ concat groups = [1; 2; 3; 4; 5]
    ∧ length groups = (5 + 2 - 1) / 2
    ∧ full_but_last 2 groups
    ∧ ∀ g, last groups = Some g -> length g = 1.
Proof. apply (chunk_group_count_and_sizes 2 [1; 2; 3; 4; 5]). lia. Defined.

(** C5 (as the code has it).  A chunk stage whose size is below one raises
    nothing: it never finds its buffer full, holds every upstream item back
    and emits them as one group once the upstream exhausts (no group at all
    over an empty upstream). *)
Theorem chunk_size_below_one_emits_one_group {T : Type} (size : Z) (l : list T) :
  (size < 1)%Z ->
  Index.result (Index.chunk (Index.arrayGenerator l) size)
  = Fulfilled (match l with [] => [] | _ :: _ => [l] end).
Proof.
  intros Hs. unfold Index.chunk. rewrite chunk_loop_nonpositive by done.
  simpl. by destruct l.
Qed.

Lemma chunk_size_below_one_emits_one_group_witness :
  Index.result (Index.chunk (Index.arrayGenerator [1; 2; 3]) (-2))
  = Fulfilled [[1; 2; 3]].
Proof. apply (chunk_size_below_one_emits_one_group (-2) [1; 2; 3]). lia. Defined.

(** C5 (the claim fails).  Draining [chunk(0)] over three items is
    fulfilled with one group of three; no error is raised. *)
Lemma chunk_size_zero_raises_nothing :
  Index.result (Index.chunk (Index.arrayGenerator [1; 2; 3]) 0) = Fulfilled [[1; 2; 3]]
  ∧ ¬ ∃ e, Index.result (Index.chunk (Index.arrayGenerator [1; 2; 3]) 0) = Rejected e.
Proof. split; [reflexivity|]. intros [e He]. discriminate He. Qed.

(** *** unique *)

Section UniqueFacts.
Context `{SameValueZero T}.
Implicit Types (l seen : list T).

(** The loop over what is left, [l], when the set holds the items of the
    part already read, [seen]: it emits the items of [l] that are the same
    as nothing before themselves in [seen ++ l]. *)
Lemma unique_loop_emits_first_occurrences l seen :
  Index.unique_loop (Index.arrayGenerator l) (list_to_set (key <$> seen))
  = Index.arrayGenerator
      (omap (λ i, x ← (seen ++ l) !! i;
                  if decide (key x ∈ key <$> firstn i (seen ++ l))
                  then None else Some x)
            (seq (length seen) (length l))).
Proof.
  revert seen. induction l as [|x l IH]; intros seen; [done|].
  cbn [Index.arrayGenerator Index.unique_loop length seq omap list_omap].
  rewrite (list_lookup_middle seen l x (length seen) eq_refl). cbn [mbind option_bind].
  rewrite take_app_length.
  assert (Hrest : ∀ res : gset (Key T), res = list_to_set (key <$> (seen ++ [x])) ->
    Index.unique_loop (Index.arrayGenerator l) res
    = Index.arrayGenerator
        (omap (λ i, x0 ← (seen ++ x :: l) !! i;
                    if decide (key x0 ∈ key <$> firstn i (seen ++ x :: l))
                    then None else Some x0)
              (seq (S (length seen)) (length l)))).
  { intros res ->. rewrite IH, length_app, <- app_assoc. simpl.
    by rewrite Nat.add_1_r. }
  destruct (decide (key x ∈ key <$> seen)) as [Hin|Hnin].
  - rewrite decide_True by (by apply elem_of_list_to_set).
    apply Hrest. rewrite fmap_snoc, list_to_set_snoc_L, (comm_L (∪)).
    symmetry. apply subseteq_union_1_L, singleton_subseteq_l.
    by apply elem_of_list_to_set.
  - rewrite decide_False by (by rewrite elem_of_list_to_set).
    cbn [Index.arrayGenerator]. f_equal.
    apply Hrest. by rewrite fmap_snoc, list_to_set_snoc_L, (comm_L (∪)).
Qed.

Lemma unique_array l :
  Index.unique (Index.arrayGenerator l) = Index.arrayGenerator (first_occurrences l).
Proof. apply (unique_loop_emits_first_occurrences l []). Qed.

Lemma first_occurrences_snoc l x :
  first_occurrences (l ++ [x])
  = first_occurrences l ++ (if decide (key x ∈ key <$> l) then [] else [x]).
Proof.
  unfold first_occurrences.
  rewrite length_app, seq_app, omap_app. simpl. f_equal.
  - apply list_omap_ext, Forall_Forall2_diag, Forall_forall.
    intros i Hi%elem_of_seq.
    rewrite lookup_app_l by lia.
    destruct (l !! i) as [y|]; simpl; [|done].
    rewrite take_app_le by lia. done.
  - rewrite (list_lookup_middle l [] x (length l) eq_refl). simpl.
    rewrite take_app_length. by destruct (decide (key x ∈ key <$> l)).
Qed.

(** Nothing is emitted that was not in the input. *)
Lemma first_occurrences_sub l x : x ∈ first_occurrences l -> x ∈ l.
Proof.
  induction l as [|y l IH] using rev_ind; [done|].
  rewrite first_occurrences_snoc, !elem_of_app.
  intros [Hx|Hx]; [left; by apply IH|].
  destruct (decide (key y ∈ key <$> l)); [by apply elem_of_nil in Hx | by right].
Qed.

(** Every item of the input is the same as an emitted one. *)
Lemma first_occurrences_covers l x :
  x ∈ l -> key x ∈ key <$> first_occurrences l.
Proof.
  revert x. induction l as [|y l IH] using rev_ind; intros x;
    [by intros ?%elem_of_nil|].
  rewrite first_occurrences_snoc, fmap_app, !elem_of_app.
  intros [Hx|Hx%list_elem_of_singleton]; [left; by apply IH|].
  subst x. destruct (decide (key y ∈ key <$> l)) as [Hin|Hnin].
  - left. apply list_elem_of_fmap in Hin as (z & -> & Hz). by apply IH.
  - right. simpl. by apply list_elem_of_singleton.
Qed.

Lemma NoDup_first_occurrences l : NoDup (key <$> first_occurrences l).
Proof.
  induction l as [|y l IH] using rev_ind; [constructor|].
  rewrite first_occurrences_snoc, fmap_app. apply NoDup_app. split; [done|].
  destruct (decide (key y ∈ key <$> l)) as [Hin|Hnin].
  - split; [|constructor]. intros x _. apply not_elem_of_nil.
  - split; [| apply NoDup_singleton].
    intros k Hk. simpl. rewrite list_elem_of_singleton. intros ->.
    apply Hnin. apply list_elem_of_fmap in Hk as (z & -> & Hz).
    apply list_elem_of_fmap. exists z. split; [done|].
    by apply first_occurrences_sub.
Qed.

End UniqueFacts.

(** C7. For every input sequence, [unique()] emits the items that are the
    same, as a [Set] compares, as no earlier item of the input, in input
    order: each distinct value exactly once, at the position of its first
    occurrence, every later duplicate dropped.  For [[1,2,1,3,2]] the output
    is [[1,2,3]].  Numbers, strings and booleans are compared by value;
    arrays and objects by identity, so two arrays that hold the same are two
    values and both are emitted, while one array met twice is emitted
    once. *)
Theorem unique_keeps_first_occurrences `{SameValueZero T} (l : list T) :
  Index.result (Index.unique (Index.fromArray l)) = Fulfilled (first_occurrences l)
  ∧ NoDup (key <$> first_occurrences l)
  ∧ (∀ x, x ∈ first_occurrences l -> x ∈ l)
  ∧ (∀ x, x ∈ l -> key x ∈ key <$> first_occurrences l)
  ∧ (∀ (before : list T) (x : T), first_occurrences (before ++ [x])
       = first_occurrences before
         ++ (if decide (key x ∈ key <$> before) then [] else [x]))
  ∧ Index.result (Index.unique (Index.fromArray [1; 2; 1; 3; 2])) = Fulfilled [1; 2; 3]
  ∧ Index.result
      (Index.unique (Index.fromArray [mkReference 10 [1]; mkReference 11 [1];
                                      mkReference 10 [1]]))
    = Fulfilled [mkReference 10 [1]; mkReference 11 [1]].
Proof.
  unfold Index.fromArray. rewrite unique_array, result_array.
  split_and!.
  - done.
  - apply NoDup_first_occurrences.
  - apply first_occurrences_sub.
  - apply first_occurrences_covers.
  - apply first_occurrences_snoc.
  - rewrite unique_array, result_array. by vm_compute.
  - rewrite unique_array, result_array. by vm_compute.
Qed.

(** ** Facts about the error policy of [map] *)

Section MapPolicyFacts.
Context {T U : Type}.
Implicit Types (fn : T -> Result U) (policy : Transformers.ErrorMap T U).

Lemma map_skip_array fn policy (l : list T) :
  (∀ item e, policy item e = Transformers.skip) ->
  Transformers.map (Index.arrayGenerator l) fn (Some policy)
  = Index.arrayGenerator (omap (λ item, fulfilled_value (fn item)) l).
Proof.
  intros Hskip. induction l as [|x l IH]; [done|].
  cbn [Index.arrayGenerator Transformers.map omap list_omap].
  destruct (fn x) as [v|e]; simpl.
  - by rewrite IH.
  - by rewrite Hskip, IH.
Qed.

Lemma map_no_policy_propagates fn (before after : list T) item e :
  Forall (λ x, is_Some (fulfilled_value (fn x))) before ->
  fn item = Rejected e ->
  Index.result (Transformers.map (Index.arrayGenerator (before ++ item :: after)) fn None)
  = Rejected e
  ∧ Index.result (Index.map (Index.arrayGenerator (before ++ item :: after)) fn)
    = Rejected e.
Proof.
  intros Hok Hfail. unfold Index.result. generalize (@nil U).
  induction Hok as [|x before [v Hv] _ IH]; intros res; simpl.
  - by rewrite Hfail.
  - destruct (fn x) as [v'|e']; [|done]. simpl. apply IH.
Qed.

End MapPolicyFacts.

(** C2. Under a skip policy, [map] drops the items on which the callback
    fails and emits the others transformed, in order; over [[1,2,3,4]] with a
    callback that fails on even inputs this is [[f(1), f(3)]].  Without a
    policy the first failure of the callback ends the pipeline: [result()]
    is rejected with that error. *)
Theorem map_skip_policy_drops_failures {T U : Type} (input : list T)
    (fn : T -> Result U) (policy : Transformers.ErrorMap T U) :
  (∀ item e, policy item e = Transformers.skip) ->
  Index.result (Transformers.map (Index.arrayGenerator input) fn (Some policy))
  = Fulfilled (omap (λ item, fulfilled_value (fn item)) input)
  ∧ (∀ (f : Z -> U) (e : exn),
       Index.result
         (Transformers.map (Index.arrayGenerator [1; 2; 3; 4]%Z)
            (λ x, if Z.even x then Rejected e else Fulfilled (f x))
            (Some (λ _ _, Transformers.skip)))
       = Fulfilled [f 1%Z; f 3%Z])
  ∧ (∀ before item after e,
       input = before ++ item :: after ->
       Forall (λ x, is_Some (fulfilled_value (fn x))) before ->
       fn item = Rejected e ->
       Index.result (Transformers.map (Index.arrayGenerator input) fn None) = Rejected e
       ∧ Index.result (Index.map (Index.arrayGenerator input) fn) = Rejected e).
Proof.
  intros Hskip. split_and!.
  - by rewrite map_skip_array, result_array.
  - intros f e. reflexivity.
  - intros before item after e -> Hok Hfail.
    by apply map_no_policy_propagates.
Qed.

Lemma map_skip_policy_drops_failures_witness :
  Index.result
    (Transformers.map (Index.arrayGenerator [1; 2; 3; 4]%Z)
       (λ x, if Z.even x then Rejected (UserThrown "even") else Fulfilled (x * 10)%Z)
       (Some (λ _ _, Transformers.skip)))
  = Fulfilled [10; 30]%Z
  ∧ Index.result
      (Transformers.map (Index.arrayGenerator [1; 2; 3; 4]%Z)
         (λ x, if Z.even x then Rejected (UserThrown "even") else Fulfilled (x * 10)%Z)
         None)
    = Rejected (UserThrown "even").
Proof.
  pose proof (map_skip_policy_drops_failures [1; 2; 3; 4]%Z
    (λ x, if Z.even x then Rejected (UserThrown "even") else Fulfilled (x * 10)%Z)
    (λ _ _, Transformers.skip) (λ _ _, eq_refl)) as (Hskip & _ & Hprop).
  split; [exact Hskip|].
  apply (Hprop [1%Z] 2%Z [3; 4]%Z (UserThrown "even") eq_refl); [|reflexivity].
  repeat constructor. by exists 10%Z.
Defined.

(** ** Facts about [groupBy] *)

Section GroupByFacts.
Context {T : Type} (get : T -> JsValue).
Implicit Types (l : list T) (acc : gmap string (list T)).

Lemma filed_existing acc x l g s :
  acc !! ToPropertyKey (get x) = Some g ->
  filed get (<[ToPropertyKey (get x) := g ++ [x]]> acc) l s
  = filed get acc (x :: l) s.
Proof.
  intros Hacc. unfold filed, group_of.
  destruct (decide (ToPropertyKey (get x) = s)) as [<-|Hne].
  - rewrite lookup_insert_eq, Hacc, filter_cons_True by done.
    by rewrite <- app_assoc.
  - by rewrite lookup_insert_ne, filter_cons_False by done.
Qed.

Lemma filed_fresh acc x l s :
  acc !! ToPropertyKey (get x) = None ->
  filed get (<[ToPropertyKey (get x) := [x]]> acc) l s
  = filed get acc (x :: l) s.
Proof.
  intros Hacc. unfold filed, group_of.
  destruct (decide (ToPropertyKey (get x) = s)) as [<-|Hne].
  - by rewrite lookup_insert_eq, Hacc, filter_cons_True by done.
  - by rewrite lookup_insert_ne, filter_cons_False by done.
Qed.

Lemma groupBy_reduce_files l acc :
  plain_keys get l ->
  ∃ m, Transformers.reduce (Index.arrayGenerator l)
         (Pipeline.groupBy_callback get) acc None = GYield m GDone
       ∧ ∀ s, m !! s = filed get acc l s.
Proof.
  intros Hplain. revert acc.
  induction Hplain as [|x l Hx _ IH]; intros acc.
  - exists acc. split; [done|]. intros s. unfold filed, group_of.
    rewrite filter_nil. destruct (acc !! s); [by rewrite app_nil_r|done].
  - cbn [Index.arrayGenerator Transformers.reduce]. unfold Pipeline.groupBy_callback.
    destruct (acc !! ToPropertyKey (get x)) as [g|] eqn:Hacc.
    + destruct (IH (<[ToPropertyKey (get x) := g ++ [x]]> acc)) as (m & Hm & Hfiled).
      exists m. split; [done|]. intros s. by rewrite Hfiled, filed_existing.
    + rewrite Hx. simpl.
      destruct (IH (<[ToPropertyKey (get x) := [x]]> acc)) as (m & Hm & Hfiled).
      exists m. split; [done|]. intros s. by rewrite Hfiled, filed_fresh.
Qed.

(** Over plain keys the key-based [reduce] of [index.ts], with
    [ignoreUndefined] off, runs as [groupBy] does. *)
Lemma index_reduce_as_groupBy l acc :
  plain_keys get l ->
  Index.reduce_loop get (Index.arrayGenerator l) false acc
  = Transformers.reduce (Index.arrayGenerator l) (Pipeline.groupBy_callback get) acc None.
Proof.
  intros Hplain. revert acc.
  induction Hplain as [|x l Hx _ IH]; intros acc; [done|].
  cbn [Index.arrayGenerator Transformers.reduce Index.reduce_loop andb].
  unfold Pipeline.groupBy_callback.
  destruct (acc !! ToPropertyKey (get x)) as [g|] eqn:Hacc; [apply IH|].
  rewrite Hx. apply IH.
Qed.

(** X14. Where no key names an inherited member, [groupBy(key)] and the
    key-based [reduce] of [index.ts] emit one and the same mapping once the
    upstream exhausts: every observed key is sent to the
    records sharing it, in arrival order, and nothing else is in it. *)
Lemma groupBy_plain_keys l :
  plain_keys get l ->
  ∃ m, Index.result (Pipeline.groupBy_generator get (Index.arrayGenerator l))
       = Fulfilled [m]
       ∧ Index.result (Index.reduce get (Index.arrayGenerator l) false) = Fulfilled [m]
       ∧ ∀ s, m !! s = match group_of get s l with [] => None | g => Some g end.
Proof.
  intros Hplain.
  destruct (groupBy_reduce_files l ∅ Hplain) as (m & Hm & Hfiled).
  exists m. unfold Pipeline.groupBy_generator, Index.reduce.
  rewrite index_reduce_as_groupBy, Hm by done.
  split_and!; [done|done|].
  intros s. rewrite Hfiled. unfold filed. by rewrite lookup_empty.
Qed.

End GroupByFacts.

(** The three records of the example are grouped as stated. *)
Lemma groupBy_example :
  Index.result
    (Pipeline.groupBy_generator KV.k
       (Index.arrayGenerator
          [KV.mk (JsString "x") 1; KV.mk (JsString "y") 2; KV.mk (JsString "x") 3]))
  = Fulfilled
      [ <["x" := [KV.mk (JsString "x") 1; KV.mk (JsString "x") 3]]>
          (<["y" := [KV.mk (JsString "y") 2]]> ∅) ].
Proof. vm_compute. reflexivity. Qed.

(** C8 (the code where it departs from the claim).  A record whose key
    field holds the name of a member every object inherits, such as
    ["constructor"], finds [acc[k]] truthy in the empty accumulator, so no
    list is created and the call of [push] on the inherited member fails:
    [result()] is rejected where a mapping sending ["constructor"] to that
    record was claimed.  The key-based [reduce] of [index.ts] fails alike. *)
Theorem groupBy_inherited_key_is_rejected :
  Index.result
    (Pipeline.groupBy_generator KV.k
       (Index.arrayGenerator [KV.mk (JsString "constructor") 1]))
  = Rejected (TypeError "acc[k].push is not a function")
  ∧ Index.result
      (Index.reduce KV.k (Index.arrayGenerator [KV.mk (JsString "constructor") 1]) false)
    = Rejected (TypeError "acc[value].push is not a function")
  ∧ ¬ ∃ m, Index.result
             (Pipeline.groupBy_generator KV.k
                (Index.arrayGenerator [KV.mk (JsString "constructor") 1]))
           = Fulfilled [m].
Proof.
  split_and!; [by vm_compute | by vm_compute |].
  intros [m Hm]. vm_compute in Hm. discriminate Hm.
Qed.

(** ** Facts about the façade of [src/pipeline.ts] *)

Section FacadeFacts.
Context {Gen Forkable Fn ErrorMap Separator Acc : Type}.
Context `{!Pipeline.Transformers Gen Fn ErrorMap Separator Acc}.
Implicit Types (σ : gmap nat (Pipeline.closure Gen Forkable)).
Implicit Types (c : Pipeline.closure Gen Forkable).
Implicit Types (ms : list (Pipeline.chaining (Fn := Fn) (ErrorMap := ErrorMap)
                             (Separator := Separator) (Acc := Acc))).

Lemma chain_same_facade ms σ this c :
  σ !! this = Some c ->
  Pipeline.chain ms this σ
  = Some (replicate (length ms) this,
          <[this := Pipeline.mkClosure
                      (foldl (λ g m, Pipeline.wrapped m g) (Pipeline.generator c) ms)
                      (Pipeline.forkedGenerator c)]> σ).
Proof.
  revert σ c. induction ms as [|m ms IH]; intros σ c Hc; simpl.
  - destruct c. by rewrite insert_id.
  - unfold Pipeline.call. rewrite Hc.
    rewrite (IH _ (Pipeline.mkClosure (Pipeline.wrapped m (Pipeline.generator c))
                     (Pipeline.forkedGenerator c))) by apply lookup_insert_eq.
    simpl. by rewrite insert_insert_eq.
Qed.

End FacadeFacts.



(** ** Facts about the fork subsystem *)

Section ForkFacts.
Context {T : Type}.
Implicit Types (s : Fork.ForkState T) (src pl : list T) (cs : list nat).
Implicit Types (buf : list (T * nat)).

Lemma pending_readers_zero a cs h c :
  pending_readers a cs = 0 -> cs !! h = Some c -> a < c.
Proof.
  revert h. induction cs as [|c0 cs IH]; intros h Hz Hc; [done|].
  simpl in Hz. destruct (Nat.leb_spec c0 a); [lia|].
  destruct h as [|h]; simpl in Hc.
  - injection Hc as <-. lia.
  - apply (IH h); [lia|done].
Qed.

Lemma pending_readers_all a cs :
  (∀ h c, cs !! h = Some c -> c ≤ a) -> pending_readers a cs = length cs.
Proof.
  induction cs as [|c0 cs IH]; intros Hall; [done|]. simpl.
  pose proof (Hall 0 c0 eq_refl). destruct (Nat.leb_spec c0 a); [|lia].
  rewrite IH; [done|]. intros h c Hc. by apply (Hall (S h)).
Qed.

Lemma pending_readers_advance a cs h c :
  cs !! h = Some c ->
  pending_readers a (<[h := S c]> cs) + (if decide (c = a) then 1 else 0)
  = pending_readers a cs.
Proof.
  revert h. induction cs as [|c0 cs IH]; intros h Hc; [done|].
  destruct h as [|h]; simpl in Hc.
  - injection Hc as ->. cbn [insert list_insert pending_readers].
    destruct (Nat.leb_spec (S c) a), (Nat.leb_spec c a); case_decide; lia.
  - change (<[S h := S c]> (c0 :: cs)) with (c0 :: <[h := S c]> cs).
    cbn [pending_readers]. specialize (IH h Hc).
    destruct (c0 <=? a), (decide (c = a)); lia.
Qed.

Lemma evict_length buf : length (Fork.evict buf) ≤ length buf.
Proof. induction buf as [|[item [|p]] buf IH]; simpl; lia. Qed.

(** Eviction keeps the slots in step with the log and never overtakes a
    cursor: a slot leaves only when no handle is pending on it. *)
Lemma evict_slots pl cs buf b :
  (∀ i item p, buf !! i = Some (item, p) ->
     pl !! (b + i) = Some item ∧ p = pending_readers (b + i) cs) ->
  (∀ h c, cs !! h = Some c -> b ≤ c) ->
  (∀ i item p, Fork.evict buf !! i = Some (item, p) ->
     pl !! (b + (length buf - length (Fork.evict buf)) + i) = Some item
     ∧ p = pending_readers (b + (length buf - length (Fork.evict buf)) + i) cs)
  ∧ (∀ h c, cs !! h = Some c -> b + (length buf - length (Fork.evict buf)) ≤ c).
Proof.
  revert b. induction buf as [|[item0 [|p0]] buf IH]; intros b Hslots Hcur.
  - simpl. split; [done|]. intros h c Hc. specialize (Hcur h c Hc). lia.
  - pose proof (evict_length buf) as Hlen.
    destruct (Hslots 0 item0 0 eq_refl) as [_ Hzero].
    rewrite Nat.add_0_r in Hzero.
    destruct (IH (S b)) as [Hs Hc].
    + intros i item p Hi. specialize (Hslots (S i) item p Hi).
      by replace (S b + i) with (b + S i) by lia.
    + intros h c Hc. pose proof (pending_readers_zero b cs h c (eq_sym Hzero) Hc). lia.
    + cbn [Fork.evict length].
      replace (b + (S (length buf) - length (Fork.evict buf)))
        with (S b + (length buf - length (Fork.evict buf))) by lia.
      done.
  - cbn [Fork.evict]. rewrite Nat.sub_diag, Nat.add_0_r. done.
Qed.

Lemma inv_take_snapshot src n s :
  fork_inv src n s ->
  fork_inv src n
    {| Fork.upstream := Fork.upstream s; Fork.buffer := Fork.buffer s;
       Fork.base := Fork.base s; Fork.cursors := Fork.cursors s;
       Fork.readers := Some (Fork.snapshot s);
       Fork.exhausted := Fork.exhausted s; Fork.pulled := Fork.pulled s |}.
Proof. intros []. by constructor. Qed.

Lemma inv_append src n s item rest :
  fork_inv src n s -> Fork.upstream s = item :: rest ->
  fork_inv src n
    {| Fork.upstream := rest; Fork.buffer := Fork.buffer s ++ [(item, Fork.snapshot s)];
       Fork.base := Fork.base s; Fork.cursors := Fork.cursors s;
       Fork.readers := Fork.readers s;
       Fork.exhausted := false; Fork.pulled := Fork.pulled s ++ [item] |}.
Proof.
  intros [Hsrc Hn Hsnap Hw Hslots Hcur Hex] Hup.
  constructor; simpl; try done.
  - rewrite <- app_assoc. simpl. by rewrite <- Hup.
  - rewrite !length_app. simpl. lia.
  - intros i item' p [Hi|[Hge Hi]]%lookup_app_Some.
    + destruct (Hslots i item' p Hi) as [Hitem Hp].
      split; [by apply lookup_app_l_Some | done].
    + apply list_lookup_singleton_Some in Hi as [Hi [= <- <-]].
      assert (i = length (Fork.buffer s)) as -> by lia.
      rewrite Hw. split; [by apply list_lookup_middle|].
      rewrite Hsnap, <- Hn. symmetry. apply pending_readers_all.
      intros h c Hc. by apply (Hcur h c).
  - intros h c Hc. destruct (Hcur h c Hc). rewrite length_app. simpl. lia.
Qed.

(** Serving a handle that is behind the write position. *)
Lemma serve_inv src n s h c :
  fork_inv src n s -> Fork.cursors s !! h = Some c -> c < length (Fork.pulled s) ->
  ∃ item s',
    Fork.serve h c s = (Some item, s')
    ∧ src !! c = Some item
    ∧ fork_inv src n s'
    ∧ Fork.cursors s' = <[h := S c]> (Fork.cursors s)
    ∧ Fork.pulled s' = Fork.pulled s
    ∧ Fork.upstream s' = Fork.upstream s.
Proof.
  intros [Hsrc Hn Hsnap Hw Hslots Hcur Hex] Hc Hlt.
  destruct (Hcur h c Hc) as [Hb _].
  destruct (lookup_lt_is_Some_2 (Fork.buffer s) (c - Fork.base s)) as [[item pending] Hslot];
    [lia|].
  destruct (Hslots _ _ _ Hslot) as [Hitem Hpend].
  replace (Fork.base s + (c - Fork.base s)) with c in * by lia.
  unfold Fork.serve. rewrite Hslot.
  set (decremented := <[c - Fork.base s := (item, pred pending)]> (Fork.buffer s)).
  assert (Hdl : length decremented = length (Fork.buffer s)) by apply length_insert.
  pose proof (evict_length decremented) as Hel.
  destruct (evict_slots (Fork.pulled s) (<[h := S c]> (Fork.cursors s)) decremented (Fork.base s))
    as [Hslots' Hcur'].
  { intros i item' p Hi. unfold decremented in Hi.
    destruct (decide (c - Fork.base s = i)) as [<-|Hne].
    - rewrite list_lookup_insert_eq in Hi by lia. injection Hi as <- <-.
      replace (Fork.base s + (c - Fork.base s)) with c by lia.
      split; [done|].
      pose proof (pending_readers_advance c _ h c Hc) as Hadv.
      rewrite decide_True in Hadv by done. lia.
    - rewrite list_lookup_insert_ne in Hi by done.
      destruct (Hslots i item' p Hi) as [Hitem' Hp]. split; [done|].
      pose proof (pending_readers_advance (Fork.base s + i) _ h c Hc) as Hadv.
      rewrite decide_False in Hadv by lia. lia. }
  { intros h' c' [[-> [<- _]]|[_ Hc']]%list_lookup_insert_Some; [lia|].
    by apply (Hcur h' c'). }
  exists item, {| Fork.upstream := Fork.upstream s; Fork.buffer := Fork.evict decremented;
       Fork.base := Fork.base s + (length decremented - length (Fork.evict decremented));
       Fork.cursors := <[h := S c]> (Fork.cursors s); Fork.readers := Fork.readers s;
       Fork.exhausted := Fork.exhausted s; Fork.pulled := Fork.pulled s |}.
  split; [done|]. split; [by rewrite <- Hsrc; apply lookup_app_l_Some|].
  split; [|done].
  constructor; simpl; try done.
  - by rewrite length_insert.
  - unfold Fork.snapshot in *. simpl. destruct (Fork.readers s); [done|].
    by rewrite length_insert.
  - lia.
  - intros h' c' Hc'. split; [by apply (Hcur' h' c')|].
    apply list_lookup_insert_Some in Hc' as [[-> [<- _]]|[_ Hc']]; [lia|].
    by apply (Hcur h' c').
Qed.

(** One pull of a handle: it receives the item of the source at its cursor
    and moves one step on, or, at the end of the source, the end signal. *)
Lemma next_spec src n s h c :
  fork_inv src n s -> Fork.cursors s !! h = Some c ->
  match src !! c with
  | Some item =>
      ∃ s', Fork.next h s = (Some item, s') ∧ fork_inv src n s'
            ∧ Fork.cursors s' = <[h := S c]> (Fork.cursors s)
  | None =>
      ∃ s', Fork.next h s = (None, s') ∧ fork_inv src n s'
            ∧ Fork.cursors s' = Fork.cursors s ∧ Fork.pulled s' = src
  end.
Proof.
  intros Hinv Hc.
  pose proof (inv_take_snapshot src n s Hinv) as Hinv1.
  unfold Fork.next. rewrite Hc.
  set (s1 := {| Fork.upstream := Fork.upstream s; Fork.readers := Some (Fork.snapshot s) |}) in *.
  assert (Hc1 : Fork.cursors s1 !! h = Some c) by done.
  destruct (inv_cursors _ _ _ Hinv1 h c Hc1) as [Hb Hle].
  pose proof (inv_write _ _ _ Hinv1) as Hw.
  pose proof (inv_source _ _ _ Hinv1) as Hsrc.
  destruct (Nat.ltb_spec c (Fork.base s1)) as [Hlt|_]; [lia|].
  destruct (Nat.ltb_spec (c - Fork.base s1) (length (Fork.buffer s1))) as [Hin|Hout].
  - destruct (serve_inv src n s1 h c Hinv1 Hc1) as (item & s' & -> & -> & Hinv' & Hcs & _);
      [lia|].
    by exists s'.
  - assert (Hc_eq : c = length (Fork.pulled s1)) by lia.
    destruct (Fork.exhausted s1) eqn:Hex.
    + pose proof (inv_exhausted _ _ _ Hinv1 Hex) as Hup.
      rewrite Hup, app_nil_r in Hsrc.
      rewrite lookup_ge_None_2 by (rewrite <- Hsrc; lia).
      by exists s1.
    + destruct (Fork.upstream s1) as [|item rest] eqn:Hup.
      * rewrite app_nil_r in Hsrc.
        rewrite lookup_ge_None_2 by (rewrite <- Hsrc; lia).
        eexists. split_and!; [done| |done|exact Hsrc].
        destruct Hinv1 as [_ Hn1 Hsnap1 Hw1 Hslots1 Hcur1 _].
        constructor; simpl; try done.
        by rewrite app_nil_r.
      * pose proof (inv_append src n s1 item rest Hinv1 Hup) as Hinv2.
        match goal with |- context [Fork.serve h c ?s2] =>
          destruct (serve_inv src n s2 h c Hinv2 Hc1) as (item' & s' & -> & -> & Hinv' & Hcs & _)
        end.
        { unfold s1 in Hc_eq. simpl in Hc_eq |- *. rewrite length_app. simpl. lia. }
        by exists s'.
Qed.

(** Draining a branch terminates and hands it the rest of the source. *)
Lemma result_loop_spec src n fuel s h c res :
  fork_inv src n s -> Fork.cursors s !! h = Some c -> length src - c < fuel ->
  ∃ s', Fork.result_loop fuel h s res = Some (res ++ drop c src, s')
        ∧ fork_inv src n s' ∧ Fork.pulled s' = src
        ∧ Fork.cursors s' = <[h := length src]> (Fork.cursors s).
Proof.
  revert s c res. induction fuel as [|fuel IH]; intros s c res Hinv Hc Hfuel; [lia|].
  pose proof (next_spec src n s h c Hinv Hc) as Hnext.
  cbn [Fork.result_loop].
  destruct (src !! c) as [item|] eqn:Hitem.
  - destruct Hnext as (s1 & -> & Hinv1 & Hcs1).
    pose proof (lookup_lt_Some _ _ _ Hitem) as Hlt.
    pose proof (lookup_lt_Some _ _ _ Hc) as Hh.
    destruct (IH s1 (S c) (res ++ [item]) Hinv1) as (s' & -> & Hinv' & Hpl & Hcs');
      [by rewrite Hcs1, list_lookup_insert_eq | lia |].
    exists s'. split_and!; try done.
    + rewrite (drop_S src item c Hitem), <- app_assoc. done.
    + by rewrite Hcs', Hcs1, list_insert_insert_eq.
  - destruct Hnext as (s1 & -> & Hinv1 & Hcs1 & Hpl).
    apply lookup_ge_None_1 in Hitem.
    exists s1. split_and!; try done.
    + by rewrite drop_ge, app_nil_r.
    + destruct (inv_cursors _ _ _ Hinv h c Hc) as [_ Hle].
      assert (length (Fork.pulled s) ≤ length src).
      { rewrite <- (inv_source _ _ _ Hinv), length_app. lia. }
      rewrite Hcs1, list_insert_id; [done|].
      rewrite Hc. f_equal. lia.
Qed.

Lemma result_spec src n s h c :
  fork_inv src n s -> Fork.cursors s !! h = Some c ->
  ∃ s', Fork.result h s = Some (drop c src, s')
        ∧ fork_inv src n s' ∧ Fork.pulled s' = src
        ∧ Fork.cursors s' = <[h := length src]> (Fork.cursors s).
Proof.
  intros Hinv Hc. unfold Fork.result.
  apply (result_loop_spec src n _ s h c [] Hinv Hc).
  destruct (inv_cursors _ _ _ Hinv h c Hc) as [Hb _].
  pose proof (inv_write _ _ _ Hinv) as Hw.
  rewrite <- (inv_source _ _ _ Hinv), length_app. lia.
Qed.

(** Pulls interleaved in any order: each handle has received the stretch of
    the source between where its cursor was and where it is. *)
Lemma run_spec src n schedule s trace s' :
  fork_inv src n s -> Fork.run schedule s = (trace, s') ->
  fork_inv src n s'
  ∧ ∀ h c, Fork.cursors s !! h = Some c ->
      ∃ c', Fork.cursors s' !! h = Some c'
            ∧ firstn c src ++ Fork.received h trace = firstn c' src.
Proof.
  revert s trace s'. induction schedule as [|h0 schedule IH]; intros s trace s' Hinv Hrun.
  - injection Hrun as <- <-. split; [done|]. intros h c Hc. exists c.
    by rewrite app_nil_r.
  - cbn [Fork.run] in Hrun.
    destruct (Fork.next h0 s) as [r s1] eqn:Hnext.
    destruct (Fork.run schedule s1) as [trace1 s2] eqn:Hrun1.
    injection Hrun as <- <-.
    destruct (Fork.cursors s !! h0) as [c0|] eqn:Hc0.
    + pose proof (next_spec src n s h0 c0 Hinv Hc0) as Hspec.
      pose proof (lookup_lt_Some _ _ _ Hc0) as Hh0.
      destruct (src !! c0) as [item|] eqn:Hitem.
      * destruct Hspec as (s1' & Heq & Hinv1 & Hcs1).
        rewrite Hnext in Heq. injection Heq as -> <-.
        destruct (IH s1 trace1 s2 Hinv1 Hrun1) as [Hinv2 Hrec].
        split; [done|]. intros h c Hc. cbn [Fork.received].
        destruct (decide (h0 = h)) as [->|Hne].
        -- assert (c = c0) as -> by congruence.
           destruct (Hrec h (S c0)) as (c' & Hc' & Htake);
             [by rewrite Hcs1, list_lookup_insert_eq|].
           exists c'. split; [done|].
           by rewrite <- Htake, (take_S_r src c0 item Hitem), <- app_assoc.
        -- apply (Hrec h c). by rewrite Hcs1, list_lookup_insert_ne.
      * destruct Hspec as (s1' & Heq & Hinv1 & Hcs1 & _).
        rewrite Hnext in Heq. injection Heq as -> <-.
        destruct (IH s1 trace1 s2 Hinv1 Hrun1) as [Hinv2 Hrec].
        split; [done|]. intros h c Hc. cbn [Fork.received].
        apply (Hrec h c). by rewrite Hcs1.
    + unfold Fork.next in Hnext. rewrite Hc0 in Hnext. injection Hnext as <- <-.
      destruct (IH s trace1 s2 Hinv Hrun1) as [Hinv2 Hrec].
      split; [done|]. intros h c Hc. cbn [Fork.received]. by apply (Hrec h c).
Qed.

(** The state [n] calls of [fork()] build, nothing pulled yet. *)
Lemma inv_initial src n :
  fork_inv src n
    {| Fork.upstream := src; Fork.buffer := []; Fork.base := 0;
       Fork.cursors := replicate n 0; Fork.readers := None;
       Fork.exhausted := false; Fork.pulled := [] |}.
Proof.
  constructor; simpl; try done.
  - apply length_replicate.
  - unfold Fork.snapshot. simpl. apply length_replicate.
  - intros h c [-> _]%lookup_replicate. lia.
Qed.

Lemma forks_from n (g : list T) s :
  Pipeline.forks n (Pipeline.mkClosure g (Some s))
  = (seq (length (Fork.cursors s)) n,
     Pipeline.mkClosure g
       (Some {| Fork.upstream := Fork.upstream s; Fork.buffer := Fork.buffer s;
                Fork.base := Fork.base s;
                Fork.cursors := Fork.cursors s ++ replicate n 0;
                Fork.readers := Fork.readers s; Fork.exhausted := Fork.exhausted s;
                Fork.pulled := Fork.pulled s |})).
Proof.
  revert s. induction n as [|n IH]; intros s.
  - destruct s. simpl. by rewrite app_nil_r.
  - cbn [Pipeline.forks]. unfold Pipeline.fork, Fork.fork. simpl.
    rewrite IH. simpl. rewrite length_app, <- app_assoc. simpl.
    by rewrite Nat.add_1_r.
Qed.

Lemma forks_fresh n src :
  1 ≤ n ->
  Pipeline.forks n (Pipeline.mkClosure src None)
  = (seq 0 n,
     Pipeline.mkClosure src
       (Some {| Fork.upstream := src; Fork.buffer := []; Fork.base := 0;
                Fork.cursors := replicate n 0; Fork.readers := None;
                Fork.exhausted := false; Fork.pulled := [] |})).
Proof.
  destruct n as [|n]; [lia|]. intros _.
  cbn [Pipeline.forks]. unfold Pipeline.fork, Fork.fork. simpl.
  by rewrite forks_from.
Qed.

(** Branches drained one after another, each for the first time. *)
Lemma branch_results_spec src n order (g : list T) s :
  fork_inv src n s -> NoDup order ->
  (∀ b, b ∈ order -> Fork.cursors s !! b = Some 0) ->
  ∃ s', Pipeline.branch_results order (Pipeline.mkClosure g (Some s))
        = Some (replicate (length order) src, Pipeline.mkClosure g (Some s'))
        ∧ fork_inv src n s'
        ∧ (order ≠ [] -> Fork.pulled s' = src).
Proof.
  revert s. induction order as [|b order IH]; intros s Hinv Hnd Hcur.
  - exists s. by split_and!.
  - apply NoDup_cons in Hnd as [Hnotin Hnd].
    destruct (result_spec src n s b 0 Hinv) as (s1 & Hres & Hinv1 & Hpl1 & Hcs1).
    { apply Hcur. by left. }
    destruct (IH s1 Hinv1 Hnd) as (s' & Hrest & Hinv' & Hpl').
    { intros b' Hb'. rewrite Hcs1, list_lookup_insert_ne.
      - apply Hcur. by right.
      - intros ->. done. }
    exists s'. cbn [Pipeline.branch_results]. unfold Pipeline.branch_result.
    simpl. rewrite Hres. simpl. rewrite Hrest. split_and!; [done|done|].
    intros _. destruct order as [|b' order].
    + simpl in Hrest. by injection Hrest as <-.
    + by apply Hpl'.
Qed.

End ForkFacts.

(** C1.  When [fork()] is called [n] times on a façade before any branch
    consumes, then, however single pulls of the branches have been
    interleaved so far, [result()] on a branch returns the rest of the
    source, so that the branch has received the complete item sequence of
    the source in the source's order; branches drained one after another
    each return the whole sequence; and the origin sequence has then yielded
    each of its items to exactly one pull: what it has been made to yield is
    the source itself, once, not once per branch. *)
Theorem fork_branches_each_replay_the_source {T : Type} (source : list T)
    (n : nat) (schedule : list nat) (branch : nat) (order : list nat) :
  branch < n -> NoDup order -> Forall (λ b, b < n) order ->
  let forked := Pipeline.forks n (Pipeline.mkClosure source None) in
  let pulls := Pipeline.branch_pulls schedule forked.2 in
  forked.1 = seq 0 n
  ∧ Pipeline.origin_pulled pulls.2 `prefix_of` source
  ∧ (∃ rest final,
       Pipeline.branch_result branch pulls.2 = Some (rest, final)
       ∧ Fork.received branch pulls.1 ++ rest = source
       ∧ Pipeline.origin_pulled final = source)
  ∧ (∃ final,
       Pipeline.branch_results order forked.2
       = Some (replicate (length order) source, final)
       ∧ (order ≠ [] -> Pipeline.origin_pulled final = source)).
Proof.
  intros Hbranch Hnd Horder. cbv zeta.
  rewrite forks_fresh by lia. cbn [fst snd].
  pose proof (inv_initial source n) as Hinv0.
  set (s0 := {| Fork.upstream := source; Fork.cursors := replicate n 0 |}) in *.
  unfold Pipeline.branch_pulls. cbn [Pipeline.forkedGenerator].
  destruct (Fork.run schedule s0) as [trace s1] eqn:Hrun. cbn [fst snd].
  destruct (run_spec source n schedule s0 trace s1 Hinv0 Hrun) as [Hinv1 Hrec].
  destruct (Hrec branch 0) as (c & Hc & Htake).
  { by apply lookup_replicate_2. }
  destruct (result_spec source n s1 branch c Hinv1 Hc) as (s2 & Hres & Hinv2 & Hpl2 & _).
  split_and!.
  - done.
  - unfold Pipeline.origin_pulled. simpl.
    exists (Fork.upstream s1). symmetry. apply (inv_source _ _ _ Hinv1).
  - exists (drop c source), (Pipeline.mkClosure source (Some s2)).
    unfold Pipeline.branch_result. simpl. rewrite Hres.
    split_and!; [done| |done].
    simpl in Htake. by rewrite Htake, take_drop.
  - destruct (branch_results_spec source n order source s0 Hinv0 Hnd) as (s' & Hall & _ & Hpl).
    { intros b Hb. apply lookup_replicate_2.
      by apply (proj1 (Forall_forall _ _) Horder). }
    eexists. split; [exact Hall|]. exact Hpl.
Qed.

Lemma fork_branches_each_replay_the_source_witness :
  let forked := Pipeline.forks 2 (Pipeline.mkClosure [1; 2; 3; 4; 5] None) in
  let pulls := Pipeline.branch_pulls [0; 1; 0; 0] forked.2 in
  forked.1 = [0; 1]
  ∧ Pipeline.origin_pulled pulls.2 `prefix_of` [1; 2; 3; 4; 5]
  ∧ (∃ rest final,
       Pipeline.branch_result 1 pulls.2 = Some (rest, final)
       ∧ Fork.received 1 pulls.1 ++ rest = [1; 2; 3; 4; 5]
       ∧ Pipeline.origin_pulled final = [1; 2; 3; 4; 5])
  ∧ (∃ final,
       Pipeline.branch_results [0; 1] forked.2
       = Some ([[1; 2; 3; 4; 5]; [1; 2; 3; 4; 5]], final)
       ∧ ([0; 1] ≠ [] -> Pipeline.origin_pulled final = [1; 2; 3; 4; 5])).
Proof.
  apply (fork_branches_each_replay_the_source [1; 2; 3; 4; 5] 2 [0; 1; 0; 0] 1 [0; 1]).
  - lia.
  - apply NoDup_cons. split; [|apply NoDup_singleton].
    rewrite list_elem_of_singleton. lia.
  - repeat constructor; lia.
Defined.

(** ** Further facts about [src/index.ts] *)

Section ShapeFacts.
Context {T : Type}.
Implicit Types (l res : list T) (source : AsyncGenerator T).

Lemma yield_star_app l1 l2 (k : AsyncGenerator T) :
  Index.yield_star (l1 ++ l2) k = Index.yield_star l1 (Index.yield_star l2 k).
Proof. induction l1 as [|x l1 IH]; simpl; congruence. Qed.

Lemma array_app l1 l2 :
  Index.arrayGenerator (l1 ++ l2) = Index.yield_star l1 (Index.arrayGenerator l2).
Proof. induction l1 as [|x l1 IH]; simpl; congruence. Qed.

(** A finite sequence is the items it yields, closed by exhaustion or by a
    rejection. *)
Lemma source_shape source :
  source = match failure source with
           | None => Index.arrayGenerator (yielded source)
           | Some e => failing (yielded source) e
           end.
Proof.
  induction source as [|x rest IH|e]; simpl; try done.
  rewrite IH at 1. by destruct (failure rest).
Qed.

End ShapeFacts.

(** X1. Two [map] stages in a row are one [map] stage with the callbacks run
    one after the other, over every sequence and for callbacks that may fail:
    same items, same rejection at the same place. *)
Theorem map_map_fusion {T U V : Type} (source : AsyncGenerator T)
    (f : T -> Result U) (g : U -> Result V) :
  Index.map (Index.map source f) g = Index.map source (and_then f g).
Proof.
  induction source as [|x rest IH|e]; simpl; try done.
  unfold and_then at 1. destruct (f x) as [y|e]; simpl; [|done].
  destruct (g y); [by rewrite IH | done].
Qed.

(** X2. [filter] keeps exactly the items its predicate accepts, in order:
    over an array it returns the array filtered, and two [filter] stages in
    a row are one stage with the conjunction of the predicates. *)
Theorem filter_keeps_accepted_items {T : Type} (source : AsyncGenerator T)
    (l : list T) (p q : T -> bool) :
  Index.result (Index.filter (Index.arrayGenerator l) (λ x, Fulfilled (p x)))
  = Fulfilled (List.filter p l)
  ∧ Index.filter (Index.filter source (λ x, Fulfilled (p x))) (λ x, Fulfilled (q x))
    = Index.filter source (λ x, Fulfilled (p x && q x)).
Proof.
  split.
  - assert (H : Index.filter (Index.arrayGenerator l) (λ x, Fulfilled (p x))
                = Index.arrayGenerator (List.filter p l)).
    { induction l as [|x l IH]; simpl; [done|].
      destruct (p x); simpl; by rewrite IH. }
    by rewrite H, result_array.
  - induction source as [|x rest IH|e]; simpl; try done.
    destruct (p x); simpl; [|done].
    destruct (q x); by rewrite IH.
Qed.

(** X3. [tap] hands every item on unchanged, whatever its callback
    returns: with a callback that does not fail it is the identity on every
    sequence, and in general it is [map] with the callback's value replaced
    by the item. *)
Theorem tap_passes_items_unchanged {T U : Type} (source : AsyncGenerator T)
    (f : T -> U) (fn : T -> Result U) :
  Index.tap source (λ x, Fulfilled (f x)) = source
  ∧ Index.tap source fn = Index.map source (λ x, on_fulfilled (λ _, x) (fn x)).
Proof.
  split; induction source as [|x rest IH|e]; simpl; try done.
  - by rewrite IH.
  - destruct (fn x); simpl; [by rewrite IH | done].
Qed.

(** *** take, continued *)

Lemma take_positive_witness :
  Index.result (Index.take (Index.arrayGenerator [1; 2; 3; 4; 5]) 2) = Fulfilled [1; 2]
  ∧ length (firstn (Z.to_nat 2) [1; 2; 3; 4; 5]) = Nat.min (Z.to_nat 2) 5
  ∧ Index.take_unpulled (Index.arrayGenerator [1; 2; 3; 4; 5]) 2
    = Index.arrayGenerator [3; 4; 5].
Proof. apply (take_positive 2 [1; 2; 3; 4; 5]). lia. Defined.

Lemma take_nonpositive_emits_everything_witness :
  Index.result (Index.take (Index.arrayGenerator [1; 2; 3]) (-4)) = Fulfilled [1; 2; 3].
Proof. apply (take_nonpositive_emits_everything (-4) [1; 2; 3]). lia. Defined.

Lemma take_loop_failing_reached {T : Type} (count : Z) (l res : list T) (e : exn) :
  (Z.of_nat (length res) < count)%Z ->
  Z.to_nat count - length res ≤ length l ->
  Index.take_loop (failing l e) count res
  = (Fulfilled (res ++ firstn (Z.to_nat count - length res) l),
     failing (skipn (Z.to_nat count - length res) l) e).
Proof.
  unfold failing. revert res; induction l as [|x l IH]; intros res Hlt Hle; simpl.
  - simpl in Hle. lia.
  - rewrite length_app; simpl.
    destruct (Z.to_nat count - length res) as [|k] eqn:Ek; [lia|]. simpl.
    destruct (Z.eqb_spec (Z.of_nat (length res + 1)) count) as [E|N].
    + assert (k = 0) as -> by lia. by rewrite firstn_O, skipn_O.
    + rewrite IH; rewrite ?length_app; simpl in *; try lia.
      replace (Z.to_nat count - (length res + 1)) with k by lia.
      by rewrite <- app_assoc.
Qed.

Lemma take_loop_failing_unreached {T : Type} (count : Z) (l res : list T) (e : exn) :
  (count ≤ Z.of_nat (length res) ∨ Z.of_nat (length res + length l) < count)%Z ->
  Index.take_loop (failing l e) count res = (Rejected e, GDone).
Proof.
  unfold failing. revert res; induction l as [|x l IH]; intros res Hc; simpl; [done|].
  rewrite length_app; simpl.
  destruct (Z.eqb_spec (Z.of_nat (length res + 1)) count) as [E|N].
  - simpl in Hc. lia.
  - apply IH. rewrite length_app; simpl in *. lia.
Qed.

(** X6. [take] collects before it emits, so a rejection that lies beyond
    the first [count] items never reaches its consumer: over a sequence that
    yields at least [count >= 1] items and then fails, [take(count)] yields
    the first [count] items and ends normally, the failure left unpulled. *)
Theorem take_shields_from_later_failure {T : Type} (count : Z) (l : list T) (e : exn) :
  (1 ≤ count)%Z -> Z.to_nat count ≤ length l ->
  Index.take (failing l e) count = Index.arrayGenerator (firstn (Z.to_nat count) l)
  ∧ Index.take_unpulled (failing l e) count = failing (skipn (Z.to_nat count) l) e.
Proof.
  intros Hc Hl. unfold Index.take, Index.take_unpulled.
  rewrite take_loop_failing_reached by (simpl; lia). simpl.
  by rewrite Nat.sub_0_r, yield_star_array.
Qed.

Lemma take_shields_from_later_failure_witness :
  Index.take (failing [1; 2; 3] (UserThrown "late")) 2 = Index.arrayGenerator [1; 2]
  ∧ Index.take_unpulled (failing [1; 2; 3] (UserThrown "late")) 2
    = failing [3] (UserThrown "late").
Proof.
  apply (take_shields_from_later_failure 2 [1; 2; 3] (UserThrown "late")); simpl; lia.
Defined.

(** X7. When the upstream fails before [take] has its [count] items, or
    the count is not positive, [take] emits nothing at all: the items it had
    collected are lost with the rejection. *)
Theorem take_early_failure_emits_nothing {T : Type} (count : Z) (l : list T) (e : exn) :
  (count ≤ 0 ∨ Z.of_nat (length l) < count)%Z ->
  Index.take (failing l e) count = GThrow e
  ∧ Index.result (Index.take (failing l e) count) = Rejected e.
Proof.
  intros Hc. unfold Index.take.
  rewrite take_loop_failing_unreached by (simpl; lia). done.
Qed.

Lemma take_early_failure_emits_nothing_witness :
  Index.take (failing [1; 2] (UserThrown "early")) 3 = GThrow (UserThrown "early")
  ∧ Index.result (Index.take (failing [1; 2] (UserThrown "early")) 3)
    = Rejected (UserThrown "early").
Proof.
  apply (take_early_failure_emits_nothing 3 [1; 2] (UserThrown "early")).
  right. simpl. lia.
Defined.

Lemma yielded_failing {T : Type} (l : list T) (e : exn) : yielded (failing l e) = l.
Proof. unfold failing. induction l as [|x l IH]; simpl; congruence. Qed.

Lemma result_failing {T : Type} (l : list T) (e : exn) :
  Index.result (failing l e) = Rejected e.
Proof.
  unfold failing, Index.result. generalize (@nil T).
  induction l as [|x l IH]; intros res; simpl; [done|apply IH].
Qed.

(** *** flat, with chunk, collect and map *)

Section FlatFacts.
Context {T : Type}.
Implicit Types (l buffer res : list T).

Lemma flat_chunk_loop (size : Z) l buffer :
  Index.flat (Index.arrays (Index.chunk_loop (Index.arrayGenerator l) size buffer))
  = Index.arrayGenerator (buffer ++ l).
Proof.
  revert buffer. induction l as [|x l IH]; intros buffer; simpl.
  - rewrite app_nil_r. destruct buffer as [|y buffer]; [done|]. simpl.
    by rewrite yield_star_array.
  - destruct (Z.of_nat (length (buffer ++ [x])) =? size)%Z; simpl.
    + rewrite IH. simpl. by rewrite <- array_app, <- app_assoc.
    + by rewrite IH, <- app_assoc.
Qed.

Lemma chunk_loop_failing (n : nat) l buffer e :
  1 ≤ n -> length buffer < n ->
  ∃ groups partial,
    Index.chunk_loop (failing l e) (Z.of_nat n) buffer = failing groups e
    ∧ concat groups ++ partial = buffer ++ l
    ∧ Forall (λ g, length g = n) groups
    ∧ length partial < n.
Proof.
  intros Hn. unfold failing. revert buffer.
  induction l as [|x l IH]; intros buffer Hb; simpl.
  - exists [], buffer. by rewrite app_nil_r.
  - rewrite length_app; simpl.
    destruct (Z.eqb_spec (Z.of_nat (length buffer + 1)) (Z.of_nat n)) as [E|N].
    + destruct (IH []) as (groups & partial & Heq & Hcat & Hfull & Hp); [simpl; lia|].
      exists ((buffer ++ [x]) :: groups), partial. simpl. rewrite Heq.
      split_and!; try done.
      * rewrite <- !app_assoc. simpl. simpl in Hcat. by rewrite Hcat.
      * constructor; [|done]. rewrite length_app; simpl. lia.
    + destruct (IH (buffer ++ [x])) as (groups & partial & Heq & Hcat & Hfull & Hp).
      { rewrite length_app; simpl. lia. }
      exists groups, partial. rewrite Heq, Hcat, <- app_assoc. done.
Qed.

End FlatFacts.

(** X8. [chunk] followed by [flat] gives the upstream back, item for item,
    for every size, those below one included: grouping loses, repeats and
    reorders nothing. *)
Theorem chunk_then_flat_restores_source {T : Type} (size : Z) (l : list T) :
  Index.flat (Index.arrays (Index.chunk (Index.arrayGenerator l) size))
  = Index.arrayGenerator l
  ∧ Index.result (Index.flat (Index.arrays (Index.chunk (Index.arrayGenerator l) size)))
    = Fulfilled l.
Proof.
  unfold Index.chunk. rewrite flat_chunk_loop. simpl.
  by rewrite result_array.
Qed.

(** X9. When the upstream fails, [chunk] has emitted the full groups only:
    the partial group it was filling is dropped with the rejection, so up to
    [size - 1] items pulled from the upstream never reach the consumer. *)
Theorem chunk_failure_drops_partial_group {T : Type} (size : Z) (l : list T) (e : exn) :
  (1 ≤ size)%Z ->
  ∃ groups partial,
    Index.chunk (failing l e) size = failing groups e
    ∧ concat groups ++ partial = l
    ∧ Forall (λ g, length g = Z.to_nat size) groups
    ∧ length partial < Z.to_nat size
    ∧ yielded (Index.chunk (failing l e) size) = groups
    ∧ Index.result (Index.chunk (failing l e) size) = Rejected e.
Proof.
  intros Hs. pose proof (Z2Nat.id size ltac:(lia)) as Hsz.
  assert (Hn : 1 ≤ Z.to_nat size) by lia.
  revert Hsz Hn. generalize (Z.to_nat size). intros n <- Hn.
  destruct (chunk_loop_failing n l [] e)
    as (groups & partial & Heq & Hcat & Hfull & Hp); [lia|simpl; lia|].
  exists groups, partial. unfold Index.chunk.
  rewrite Heq, yielded_failing, result_failing. by split_and!.
Qed.

Lemma chunk_failure_drops_partial_group_witness :
  ∃ groups partial,
    Index.chunk (failing [1; 2; 3] (UserThrown "boom")) 2
    = failing groups (UserThrown "boom")
    ∧ concat groups ++ partial = [1; 2; 3]
    ∧ Forall (λ g, length g = 2) groups
    ∧ length partial < 2
    ∧ yielded (Index.chunk (failing [1; 2; 3] (UserThrown "boom")) 2) = groups
    ∧ Index.result (Index.chunk (failing [1; 2; 3] (UserThrown "boom")) 2)
      = Rejected (UserThrown "boom").
Proof.
  apply (chunk_failure_drops_partial_group 2 [1; 2; 3] (UserThrown "boom")). lia.
Defined.

(** X10. [flatMap(fn)] over an array returns the arrays [fn] gives for the
    items, concatenated in item order; [collect] followed by [flat] gives
    the upstream back. *)
Theorem flatMap_concatenates {T U : Type} (l : list T) (f : T -> list U) :
  Index.result (Index.flatMap (Index.arrayGenerator l) (λ val, Fulfilled (f val)))
  = Fulfilled (concat (f <$> l))
  ∧ Index.flat (Index.arrays (Index.collect (Index.arrayGenerator l)))
    = Index.arrayGenerator l.
Proof.
  split.
  - assert (H : Index.flatMap (Index.arrayGenerator l) (λ val, Fulfilled (f val))
                = Index.arrayGenerator (concat (f <$> l))).
    { unfold Index.flatMap. induction l as [|x l IH]; simpl; [done|].
      by rewrite IH, array_app. }
    by rewrite H, result_array.
  - unfold Index.collect. rewrite collect_loop_array. simpl.
    by rewrite yield_star_array.
Qed.

(** *** unique, continued *)

Lemma first_occurrences_distinct `{SameValueZero T} (l : list T) :
  NoDup (key <$> l) -> first_occurrences l = l.
Proof.
  induction l as [|x l IH] using rev_ind; intros Hnd; [done|].
  rewrite fmap_app in Hnd. apply NoDup_app in Hnd as (Hl & Hx & _).
  rewrite first_occurrences_snoc, (IH Hl), decide_False; [done|].
  intros Hin. apply (Hx _ Hin). simpl. by apply list_elem_of_singleton.
Qed.

(** X11. [unique] is idempotent: a second [unique] stage changes nothing. *)
Theorem unique_is_idempotent `{SameValueZero T} (l : list T) :
  Index.unique (Index.unique (Index.arrayGenerator l))
  = Index.unique (Index.arrayGenerator l).
Proof.
  rewrite !unique_array. f_equal.
  apply first_occurrences_distinct, NoDup_first_occurrences.
Qed.

(** X12. Over an upstream without repeated values, no two items the same
    as a [Set] compares, [unique] is the identity. *)
Theorem unique_keeps_distinct_input `{SameValueZero T} (l : list T) :
  NoDup (key <$> l) ->
  Index.unique (Index.arrayGenerator l) = Index.arrayGenerator l
  ∧ Index.result (Index.unique (Index.arrayGenerator l)) = Fulfilled l.
Proof.
  intros Hnd. rewrite unique_array, first_occurrences_distinct by done.
  by rewrite result_array.
Qed.

Lemma unique_keeps_distinct_input_witness :
  Index.unique (Index.arrayGenerator [3; 1; 2]) = Index.arrayGenerator [3; 1; 2]
  ∧ Index.result (Index.unique (Index.arrayGenerator [3; 1; 2])) = Fulfilled [3; 1; 2].
Proof.
  apply (unique_keeps_distinct_input [3; 1; 2]).
  change (NoDup [3; 1; 2]).
  repeat (apply NoDup_cons; split;
          [rewrite ?elem_of_cons, ?elem_of_nil; intros H; repeat destruct H as [H|H]; lia|]).
  apply NoDup_nil_2.
Defined.

(** *** join *)



(** *** reduce by key, continued *)

Lemma groupBy_plain_keys_witness :
  ∃ m, Index.result
         (Pipeline.groupBy_generator KV.k
            (Index.arrayGenerator [KV.mk (JsString "x") 1; KV.mk undefined 2]))
       = Fulfilled [m]
       ∧ Index.result
           (Index.reduce KV.k
              (Index.arrayGenerator [KV.mk (JsString "x") 1; KV.mk undefined 2]) false)
         = Fulfilled [m]
       ∧ ∀ s, m !! s
              = match group_of KV.k s [KV.mk (JsString "x") 1; KV.mk undefined 2] with
                | [] => None
                | g => Some g
                end.
Proof.
  apply (groupBy_plain_keys KV.k [KV.mk (JsString "x") 1; KV.mk undefined 2]).
  repeat constructor.
Defined.

Section ReduceFacts.
Context {T : Type} (get : T -> JsValue).
Implicit Types (l before after : list T) (acc : gmap string (list T)).

Lemma reduce_loop_inherited before r after acc :
  plain_keys get before ->
  inherited (ToPropertyKey (get r)) = true ->
  (∀ s, inherited s = true -> acc !! s = None) ->
  Index.reduce_loop get (Index.arrayGenerator (before ++ r :: after)) false acc
  = GThrow (TypeError "acc[value].push is not a function")
  ∧ Transformers.reduce (Index.arrayGenerator (before ++ r :: after))
      (Pipeline.groupBy_callback get) acc None
    = GThrow (TypeError "acc[k].push is not a function").
Proof.
  intros Hplain Hr. revert acc.
  induction Hplain as [|x before Hx _ IH]; intros acc Hacc.
  - cbn [app Index.arrayGenerator Index.reduce_loop Transformers.reduce andb].
    unfold Pipeline.groupBy_callback. by rewrite (Hacc _ Hr), Hr.
  - cbn [app Index.arrayGenerator Index.reduce_loop Transformers.reduce andb].
    unfold Pipeline.groupBy_callback.
    assert (Hstep : ∀ group,
      ∀ s, inherited s = true -> <[ToPropertyKey (get x) := group]> acc !! s = None).
    { intros group s Hs. rewrite lookup_insert_ne; [by apply Hacc|].
      intros Heq. rewrite Heq in Hx. congruence. }
    destruct (acc !! ToPropertyKey (get x)) as [g|] eqn:Hg.
    + apply IH, Hstep.
    + rewrite Hx. apply IH, Hstep.
Qed.

Lemma reduce_loop_ignoreUndefined l acc :
  Index.reduce_loop get (Index.arrayGenerator l) true acc
  = Index.reduce_loop get
      (Index.arrayGenerator (filter (λ r, get r ≠ undefined) l)) false acc.
Proof.
  revert acc. induction l as [|x l IH]; intros acc; [done|].
  cbn [Index.arrayGenerator Index.reduce_loop andb].
  destruct (decide (get x = undefined)) as [Hu|Hd].
  - rewrite bool_decide_eq_true_2, filter_cons_False by auto. apply IH.
  - rewrite bool_decide_eq_false_2, filter_cons_True by done.
    cbn [Index.arrayGenerator Index.reduce_loop andb].
    destruct (acc !! ToPropertyKey (get x)); [apply IH|].
    destruct (inherited (ToPropertyKey (get x))); [done|apply IH].
Qed.

End ReduceFacts.

(** X15. Grouping is rejected as soon as a record's key names a member of
    [Object.prototype]: whatever came before (with plain keys) and whatever
    follows, the key-based [reduce] of [index.ts] and [groupBy] both end in a
    [TypeError] and emit no mapping. *)
Theorem grouping_rejects_inherited_key {T : Type} (get : T -> JsValue)
    (before after : list T) (r : T) :
  plain_keys get before ->
  inherited (ToPropertyKey (get r)) = true ->
  Index.result (Index.reduce get (Index.arrayGenerator (before ++ r :: after)) false)
  = Rejected (TypeError "acc[value].push is not a function")
  ∧ Index.result
      (Pipeline.groupBy_generator get (Index.arrayGenerator (before ++ r :: after)))
    = Rejected (TypeError "acc[k].push is not a function").
Proof.
  intros Hplain Hr. unfold Index.reduce, Pipeline.groupBy_generator.
  destruct (reduce_loop_inherited get before r after ∅ Hplain Hr) as [-> ->]; [|done].
  intros s _. apply lookup_empty.
Qed.

Lemma grouping_rejects_inherited_key_witness :
  Index.result
    (Index.reduce KV.k
       (Index.arrayGenerator
          ([KV.mk (JsString "x") 1] ++ KV.mk (JsString "toString") 2
             :: [KV.mk (JsString "y") 3])) false)
  = Rejected (TypeError "acc[value].push is not a function")
  ∧ Index.result
      (Pipeline.groupBy_generator KV.k
         (Index.arrayGenerator
            ([KV.mk (JsString "x") 1] ++ KV.mk (JsString "toString") 2
               :: [KV.mk (JsString "y") 3])))
    = Rejected (TypeError "acc[k].push is not a function").
Proof.
  apply (grouping_rejects_inherited_key KV.k [KV.mk (JsString "x") 1]
           [KV.mk (JsString "y") 3] (KV.mk (JsString "toString") 2)).
  - repeat constructor.
  - reflexivity.
Defined.

(** X16. With [ignoreUndefined] set, the key-based [reduce] behaves as if
    the records whose key field is [undefined] had never been in the
    upstream: it groups the remaining records exactly as it would without
    the option. *)
Theorem reduce_ignoreUndefined_skips_records {T : Type} (get : T -> JsValue)
    (l : list T) :
  Index.reduce get (Index.arrayGenerator l) true
  = Index.reduce get (Index.arrayGenerator (filter (λ r, get r ≠ undefined) l)) false.
Proof. apply reduce_loop_ignoreUndefined. Qed.

(** *** each and pipe *)

(** X17. [each] runs its callback on the items in order, each call acting
    on the state the previous one left, and stops at the first call that
    fails: the items after it are never handed to the callback. *)
Theorem each_stops_at_first_failure {T U S : Type} (before after : list T) (x : T)
    (fn : T -> S -> S * Result U) (s : S) :
  Index.each (Index.arrayGenerator (before ++ x :: after)) fn s
  = match Index.each (Index.arrayGenerator before) fn s with
    | (s1, Fulfilled _) =>
        match fn x s1 with
        | (s2, Fulfilled _) => Index.each (Index.arrayGenerator after) fn s2
        | (s2, Rejected e) => (s2, Rejected e)
        end
    | (s1, Rejected e) => (s1, Rejected e)
    end.
Proof.
  revert s. induction before as [|y before IH]; intros s; simpl.
  - by destruct (fn x s) as [s2 [u|e]].
  - destruct (fn y s) as [s1 [u|e]]; [apply IH|done].
Qed.

(** X18. [pipe] writes every item the upstream yields to the destination,
    in order, and ends the destination only when the upstream exhausts:
    when the upstream fails, the items before the failure have been written
    and [end] is never called. *)
Theorem pipe_ends_only_after_exhaustion {T D : Type} (write : D -> T -> D)
    (end_ : D -> D) (source : AsyncGenerator T) (destination : D) :
  Index.pipe write end_ source destination
  = match failure source with
    | None => (end_ (foldl write destination (yielded source)), Fulfilled tt)
    | Some e => (foldl write destination (yielded source), Rejected e)
    end.
Proof.
  revert destination.
  induction source as [|x rest IH|e]; intros destination; simpl; auto.
Qed.

(** ** Further facts about the façade of [src/pipeline.ts] *)

Section ForkCallFacts.
Context {Gen Forkable Fn ErrorMap Separator Acc : Type}.
Context `{!Pipeline.Transformers Gen Fn ErrorMap Separator Acc}.
Context `{!Pipeline.Forkables Gen Forkable}.
Implicit Types (σ : gmap nat (Pipeline.closure Gen Forkable)).
Implicit Types (c : Pipeline.closure Gen Forkable).

Lemma fork_call_spec σ this c :
  σ !! this = Some c ->
  ∃ new,
    σ !! new = None
    ∧ Pipeline.fork_call this σ
      = Some (new,
              <[new := Pipeline.mkClosure
                         (Pipeline.forkable_fork
                            (default (Pipeline.createForkableGenerator (Pipeline.generator c))
                               (Pipeline.forkedGenerator c))).1
                         None]>
                (<[this := Pipeline.mkClosure (Pipeline.generator c)
                             (Some (Pipeline.forkable_fork
                                      (default
                                         (Pipeline.createForkableGenerator
                                            (Pipeline.generator c))
                                         (Pipeline.forkedGenerator c))).2)]> σ)).
Proof.
  intros Hc. unfold Pipeline.fork_call, Pipeline.pipeline. rewrite Hc.
  set (forked := default _ _).
  assert (Hf : match Pipeline.forkedGenerator c with
               | Some f => f
               | None => Pipeline.createForkableGenerator (Pipeline.generator c)
               end = forked) by (unfold forked; by destruct (Pipeline.forkedGenerator c)).
  rewrite Hf. destruct (Pipeline.forkable_fork forked) as [branch forked'].
  eexists. split; [|reflexivity].
  apply eq_None_not_Some. intros Hsome.
  apply (is_fresh (dom (<[this := Pipeline.mkClosure (Pipeline.generator c)
                                    (Some forked')]> σ))).
  apply elem_of_dom, lookup_insert_is_Some.
  match goal with |- this = ?new ∨ _ =>
    destruct (decide (this = new)); [by left | by right]
  end.
Qed.

End ForkCallFacts.

(** X19. [fork()] never returns the façade it is called on, nor any façade
    that exists: it returns a new one whose current sequence is the branch
    that [fork()] of the forkable generator hands out (the one the receiver
    holds, or one built around the receiver's current sequence if it holds
    none) and which has no forkable generator of its own.  The receiver
    keeps its current sequence and holds the forkable generator from then
    on, and every other façade is left as it was. *)
Theorem fork_call_returns_a_new_facade {Gen Forkable : Type}
    `{!Pipeline.Forkables Gen Forkable}
    (σ : gmap nat (Pipeline.closure Gen Forkable)) (this : nat)
    (c : Pipeline.closure Gen Forkable) :
  σ !! this = Some c ->
  ∃ new σ',
    Pipeline.fork_call this σ = Some (new, σ')
    ∧ σ !! new = None
    ∧ new ≠ this
    ∧ σ' !! new
      = Some (Pipeline.mkClosure
                (Pipeline.forkable_fork
                   (default (Pipeline.createForkableGenerator (Pipeline.generator c))
                      (Pipeline.forkedGenerator c))).1
                None)
    ∧ σ' !! this
      = Some (Pipeline.mkClosure (Pipeline.generator c)
                (Some (Pipeline.forkable_fork
                         (default (Pipeline.createForkableGenerator (Pipeline.generator c))
                            (Pipeline.forkedGenerator c))).2))
    ∧ (Pipeline.forkedGenerator <$> σ' !! new) = Some None
    ∧ (Pipeline.generator <$> σ' !! this) = Some (Pipeline.generator c)
    ∧ ∀ other, other ≠ this -> other ≠ new -> σ' !! other = σ !! other.
Proof.
  intros Hc. destruct (fork_call_spec σ this c Hc) as (new & Hnew & Hfork).
  assert (Hne : new ≠ this) by (intros ->; congruence).
  eexists new, _. split; [exact Hfork|].
  split_and!; try done.
  - by rewrite lookup_insert_eq.
  - by rewrite lookup_insert_ne, lookup_insert_eq.
  - by rewrite lookup_insert_eq.
  - by rewrite lookup_insert_ne, lookup_insert_eq.
  - intros other H1 H2. by rewrite !lookup_insert_ne.
Qed.

Lemma fork_call_returns_a_new_facade_witness :
  ∃ new σ',
    Pipeline.fork_call 0 {[0 := Pipeline.mkClosure ["source"] None]} = Some (new, σ')
    ∧ ({[0 := Pipeline.mkClosure ["source"] None]}
         : gmap nat (Pipeline.closure (list string) (list string * nat))) !! new = None
    ∧ new ≠ 0
    ∧ σ' !! new = Some (Pipeline.mkClosure ["source"; "branch"] None)
    ∧ σ' !! 0 = Some (Pipeline.mkClosure ["source"] (Some (["source"], 1)))
    ∧ (Pipeline.forkedGenerator <$> σ' !! new) = Some None
    ∧ (Pipeline.generator <$> σ' !! 0) = Some ["source"]
    ∧ ∀ other, other ≠ 0 -> other ≠ new ->
        σ' !! other
        = ({[0 := Pipeline.mkClosure ["source"] None]}
             : gmap nat (Pipeline.closure (list string) (list string * nat))) !! other.
Proof.
  destruct (fork_call_returns_a_new_facade
              ({[0 := Pipeline.mkClosure ["source"] None]}
                 : gmap nat (Pipeline.closure (list string) (list string * nat))) 0
              (Pipeline.mkClosure ["source"] None) (lookup_singleton_eq _ _))
    as (new & σ' & H1 & H2 & H3 & H4 & H5 & H6 & H7 & H8).
  exists new, σ'.
  split; [exact H1|]. split; [exact H2|]. split; [exact H3|]. split; [exact H4|].
  split; [exact H5|]. split; [exact H6|]. split; [exact H7|exact H8].
Defined.

(** X20. The forkable generator is built once, around the sequence the
    façade holds at its first [fork()], and kept: stages chained on the
    façade afterwards change its current sequence but never reach the
    branches forked later, which come from that same forkable generator. *)
Theorem fork_is_built_once {Gen Forkable Fn ErrorMap Separator Acc : Type}
    `{!Pipeline.Transformers Gen Fn ErrorMap Separator Acc}
    `{!Pipeline.Forkables Gen Forkable}
    (σ : gmap nat (Pipeline.closure Gen Forkable)) (this : nat) (g : Gen)
    (ms : list Pipeline.chaining) :
  σ !! this = Some (Pipeline.mkClosure g None) ->
  ∃ b1 σ1 σ2 b2 σ3,
    Pipeline.fork_call this σ = Some (b1, σ1)
    ∧ Pipeline.chain ms this σ1 = Some (replicate (length ms) this, σ2)
    ∧ Pipeline.fork_call this σ2 = Some (b2, σ3)
    ∧ b1 ≠ b2
    ∧ Pipeline.toGenerator this σ3
      = Some (foldl (λ g m, Pipeline.wrapped m g) g ms)
    ∧ Pipeline.toGenerator b1 σ3
      = Some (Pipeline.forkable_fork (Pipeline.createForkableGenerator g)).1
    ∧ Pipeline.toGenerator b2 σ3
      = Some (Pipeline.forkable_fork
                (Pipeline.forkable_fork (Pipeline.createForkableGenerator g)).2).1.
Proof.
  intros Hc.
  destruct (fork_call_spec σ this _ Hc) as (b1 & Hb1 & Hfork1). simpl in Hfork1.
  assert (Hne1 : b1 ≠ this) by (intros ->; congruence).
  set (f0 := Pipeline.createForkableGenerator g) in *.
  set (σ1 := <[b1 := _]> _) in Hfork1.
  assert (Hthis1 : σ1 !! this
                   = Some (Pipeline.mkClosure g (Some (Pipeline.forkable_fork f0).2))).
  { unfold σ1. by rewrite lookup_insert_ne, lookup_insert_eq. }
  pose proof (chain_same_facade ms σ1 this _ Hthis1) as Hchain. simpl in Hchain.
  set (σ2 := <[this := _]> σ1) in Hchain.
  assert (Hthis2 : σ2 !! this
                   = Some (Pipeline.mkClosure (foldl (λ g m, Pipeline.wrapped m g) g ms)
                             (Some (Pipeline.forkable_fork f0).2)))
    by apply lookup_insert_eq.
  destruct (fork_call_spec σ2 this _ Hthis2) as (b2 & Hb2 & Hfork2). simpl in Hfork2.
  assert (Hne2 : b2 ≠ this) by (intros ->; congruence).
  assert (Hb1σ2 : σ2 !! b1 = Some (Pipeline.mkClosure (Pipeline.forkable_fork f0).1 None)).
  { unfold σ2, σ1. by rewrite lookup_insert_ne, lookup_insert_eq. }
  assert (Hne12 : b1 ≠ b2) by (intros ->; congruence).
  eexists b1, σ1, σ2, b2, _.
  split; [exact Hfork1|]. split; [exact Hchain|]. split; [exact Hfork2|].
  split; [done|]. unfold Pipeline.toGenerator.
  split_and!.
  - by rewrite lookup_insert_ne, lookup_insert_eq.
  - by rewrite !lookup_insert_ne, Hb1σ2.
  - by rewrite lookup_insert_eq.
Qed.

Lemma fork_is_built_once_witness :
  ∃ b1 σ1 σ2 b2 σ3,
    Pipeline.fork_call 0 {[0 := Pipeline.mkClosure ["source"] None]} = Some (b1, σ1)
    ∧ Pipeline.chain [Pipeline.map tt None; Pipeline.unique] 0 σ1 = Some ([0; 0], σ2)
    ∧ Pipeline.fork_call 0 σ2 = Some (b2, σ3)
    ∧ b1 ≠ b2
    ∧ Pipeline.toGenerator 0 σ3 = Some ["source"; "map"; "unique"]
    ∧ Pipeline.toGenerator b1 σ3 = Some ["source"; "branch"]
    ∧ Pipeline.toGenerator b2 σ3 = Some ["source"; "branch"].
Proof.
  destruct (fork_is_built_once (Forkable := list string * nat)
              {[0 := Pipeline.mkClosure ["source"] None]} 0 ["source"]
              [Pipeline.map tt None; Pipeline.unique] (lookup_singleton_eq _ _))
    as (b1 & σ1 & σ2 & b2 & σ3 & H1 & H2 & H3 & H4 & H5 & H6 & H7).
  exists b1, σ1, σ2, b2, σ3.
  split; [exact H1|]. split; [exact H2|]. split; [exact H3|]. split; [exact H4|].
  split; [exact H5|]. split; [exact H6|exact H7].
Defined.
